(** * Store image processing service: job orchestration (main.go)

    A shallow embedding of the Go service.  The goroutines of one job
    (the [processJob] thread and one unit per image) are modelled as an
    interleaving transition system over the shared [JobData]; every
    critical section taken under [job.mu] is one atomic step.  The HTTP
    handlers are functions on the registry ([jobs], [nextJobID]). *)

From Stdlib Require Import Ascii.
From stdpp Require Import base gmap list strings pretty.

(** ** Go scalars *)

(** Go's [int] on the 64-bit targets the service is built for. *)
Definition wrap (n : Z) : Z := ((n + 2^63) `mod` 2^64 - 2^63)%Z.

(** [float64(n)] for an [int] n, as the exact value of the resulting double:
    53 significant bits, round to nearest, ties to even.  Every such value
    is an integer, so integer-valued doubles are carried as [Z]. *)
Definition float64_of_int (n : Z) : Z :=
  let a := Z.abs n in
  if (a <? 2^53)%Z then n
  else
    let e := (Z.log2 a - 52)%Z in
    let q := Z.shiftr a e in
    let r := (a - Z.shiftl q e)%Z in
    let half := Z.shiftl 1 (e - 1) in
    let q' := if (r <? half)%Z then q
              else if (half <? r)%Z then (q + 1)%Z
              else if Z.even q then q else (q + 1)%Z in
    (Z.sgn n * Z.shiftl q' e)%Z.

(** [time.Time]; [None] is the zero value, [Some t] an instant read from the
    clock. *)
Definition Time : Type := option Z.

(** ** Data model *)

Record Store := {
  Store_StoreID : string;
  Store_StoreName : string;
  Store_AreaCode : string;
}.

Record Visit := {
  Visit_StoreID : string;
  Visit_ImageURLs : list string;
  Visit_VisitTime : string;
}.

Record SubmitJobRequest := {
  Count : Z;
  Visits : list Visit;
}.

Record StoreError := {
  StoreError_StoreID : string;
  StoreError_Error : string;
}.

Record ImageResult := {
  StoreID : string;
  StoreName : string;
  AreaCode : string;
  ImageURL : string;
  Width : Z;
  Height : Z;
  Perimeter : Z;
}.

Record JobData := {
  ID : Z;
  Status : string;
  Results : list ImageResult;
  Errors : list StoreError;
  CreatedAt : Time;
  CompletedAt : Time;
}.

#[global] Instance StoreError_eq_dec : EqDecision StoreError.
Proof. solve_decision. Defined.

(** ** Store master *)

Definition storeMaster : gmap string Store :=
  <["S00339218" := {| Store_StoreID := "S00339218"; Store_StoreName := "Store A";
                      Store_AreaCode := "NYC" |}]>
  (<["S01408764" := {| Store_StoreID := "S01408764"; Store_StoreName := "Store B";
                       Store_AreaCode := "LA" |}]> ∅).

Definition getStore (storeID : string) : option Store := storeMaster !! storeID.

(** ** The network and the image decoders

    What one GET of a URL and the decoding of its body produce, in the order
    [downloadAndGetDimensions] meets them. *)

Record Rectangle := {
  MinX : Z; MinY : Z; MaxX : Z; MaxY : Z;
}.

Inductive DecodeOutcome :=
| Undecodable (err : string)
| Decoded (bounds : Rectangle).

Inductive HttpOutcome :=
| RequestInvalid (err : string)
| TransportFailed (err : string)
| Responded (statusCode : Z) (body : DecodeOutcome).

Definition StatusOK : Z := 200.

(** ** Job status values *)

Definition ongoing : string := "ongoing".
Definition completed : string := "completed".
Definition failed : string := "failed".

Definition unknown_store_message : string := "Store ID does not exist".

(** ** State of the goroutines of one job *)

(** Where the [processJob] thread stands: at the head of the visit loop with
    the visits still to scan, inside the image loop of a visit, or returned.
    [AtVisits []] is the thread at [wg.Wait()]. *)
Inductive Pc :=
| AtVisits (visits : list Visit)
| AtImages (storeID : string) (imageURLs : list string) (visits : list Visit)
| Returned.

Record Proc := {
  job : JobData;
  pc : Pc;
  wg : nat;
  units : list (string * string);
}.

(** A scheduling choice: the [processJob] thread takes its next step (and
    reads [now] from the clock if the step needs it), or the i-th image unit
    in flight runs to completion. *)
Inductive Event :=
| Main (now : Z)
| Unit (i : nat).

Section Job.

(** The world outside the process: what fetching each URL yields. *)
Variable http_get : string → HttpOutcome.

Definition downloadAndGetDimensions (url : string) : (Z * Z) + string :=
  match http_get url with
  | RequestInvalid err => inr ("error creating request: " +:+ err)
  | TransportFailed err => inr ("error downloading image: " +:+ err)
  | Responded statusCode body =>
      if decide (statusCode ≠ StatusOK)
      then inr ("error downloading image: status code " +:+ pretty statusCode)
      else match body with
           | Undecodable err => inr ("error decoding image: " +:+ err)
           | Decoded bounds =>
               let width := wrap (MaxX bounds - MinX bounds) in
               let height := wrap (MaxY bounds - MinY bounds) in
               inl (width, height)
           end
  end.

Definition calculateImagePerimeter (storeID imageURL : string)
  : ImageResult + string :=
  match getStore storeID with
  | None => inr ("store ID " +:+ storeID +:+ " does not exist")
  | Some store =>
      match downloadAndGetDimensions imageURL with
      | inr err => inr err
      | inl (width, height) =>
          let perimeter := (2 * float64_of_int (wrap (width + height)))%Z in
          inl {| StoreID := Store_StoreID store;
                 StoreName := Store_StoreName store;
                 AreaCode := Store_AreaCode store;
                 ImageURL := imageURL;
                 Width := width;
                 Height := height;
                 Perimeter := perimeter |}
      end
  end.

(** *** Mutations of the job, each done under [job.mu] *)

Definition record_error (j : JobData) (storeID msg : string) : JobData :=
  {| ID := ID j; Status := failed; Results := Results j;
     Errors := Errors j ++ [ {| StoreError_StoreID := storeID;
                                StoreError_Error := msg |} ];
     CreatedAt := CreatedAt j; CompletedAt := CompletedAt j |}.

Definition record_result (j : JobData) (result : ImageResult) : JobData :=
  {| ID := ID j; Status := Status j; Results := Results j ++ [result];
     Errors := Errors j; CreatedAt := CreatedAt j;
     CompletedAt := CompletedAt j |}.

Definition set_completedAt (j : JobData) (now : Z) : JobData :=
  {| ID := ID j; Status := Status j; Results := Results j; Errors := Errors j;
     CreatedAt := CreatedAt j; CompletedAt := Some now |}.

Definition finish (j : JobData) (now : Z) : JobData :=
  {| ID := ID j;
     Status := if decide (Status j ≠ failed) then completed else Status j;
     Results := Results j; Errors := Errors j;
     CreatedAt := CreatedAt j; CompletedAt := Some now |}.

(** *** processJob: the steps of its own thread *)

Definition step_main (now : Z) (p : Proc) : option Proc :=
  match pc p with
  | AtVisits [] =>
      (* wg.Wait() returns only when the counter is zero *)
      if decide (wg p = 0)
      then Some {| job := finish (job p) now; pc := Returned;
                   wg := wg p; units := units p |}
      else None
  | AtVisits (visit :: rest) =>
      let storeID := Visit_StoreID visit in
      match getStore storeID with
      | None =>
          (* the write to CompletedAt follows the unlock; no other goroutine
             reads or writes that field, so it is taken with the same step *)
          Some {| job := set_completedAt
                           (record_error (job p) storeID unknown_store_message)
                           now;
                  pc := Returned; wg := wg p; units := units p |}
      | Some _ =>
          Some {| job := job p; pc := AtImages storeID (Visit_ImageURLs visit) rest;
                  wg := wg p; units := units p |}
      end
  | AtImages storeID [] rest =>
      Some {| job := job p; pc := AtVisits rest; wg := wg p; units := units p |}
  | AtImages storeID (imageURL :: urls) rest =>
      (* wg.Add(1); go func(storeID, imageURL) *)
      Some {| job := job p; pc := AtImages storeID urls rest;
              wg := S (wg p); units := units p ++ [(storeID, imageURL)] |}
  | Returned => None
  end.

(** *** processJob: one image unit, from its fetch to [wg.Done()] *)

Definition step_unit (i : nat) (p : Proc) : option Proc :=
  match units p !! i with
  | None => None
  | Some (storeID, imageURL) =>
      let job' :=
        match calculateImagePerimeter storeID imageURL with
        | inr err => record_error (job p) storeID err
        | inl result => record_result (job p) result
        end in
      Some {| job := job'; pc := pc p; wg := pred (wg p);
              units := delete i (units p) |}
  end.

Definition step (ev : Event) (p : Proc) : option Proc :=
  match ev with
  | Main now => step_main now p
  | Unit i => step_unit i p
  end.

Fixpoint run (evs : list Event) (p : Proc) : option Proc :=
  match evs with
  | [] => Some p
  | ev :: evs' =>
      match step ev p with
      | Some p' => run evs' p'
      | None => None
      end
  end.

(** The job as [handleSubmitJob] creates it, and the goroutine state right
    after [go processJob(job, req)]. *)
Definition newJob (jobID : Z) (now : Z) : JobData :=
  {| ID := jobID; Status := ongoing; Results := []; Errors := [];
     CreatedAt := Some now; CompletedAt := None |}.

Definition processJob (j : JobData) (req : SubmitJobRequest) : Proc :=
  {| job := j; pc := AtVisits (Visits req); wg := 0; units := [] |}.

End Job.

(** ** The registry and the HTTP handlers *)

Record JobResponse := {
  JobResponse_JobID : Z;
}.

Record JobStatusResponse := {
  JobStatusResponse_Status : string;
  JobStatusResponse_JobID : string;
  JobStatusResponse_Errors : list StoreError;
}.

(** JSON values as the encoder writes them. *)
#[warnings="-register-all"] Inductive JSON :=
| JString (s : string)
| JNumber (n : Z)
| JArray (items : list JSON)
| JObject (fields : list (string * JSON)).

Definition encode_StoreError (e : StoreError) : JSON :=
  JObject [("store_id", JString (StoreError_StoreID e));
           ("error", JString (StoreError_Error e))].

(** The [error] field carries [omitempty]: an empty slice is left out. *)
Definition encode_JobStatusResponse (r : JobStatusResponse) : JSON :=
  JObject ([("status", JString (JobStatusResponse_Status r));
            ("job_id", JString (JobStatusResponse_JobID r))]
           ++ match JobStatusResponse_Errors r with
              | [] => []
              | errs => [("error", JArray (encode_StoreError <$> errs))]
              end).

Definition encode_JobResponse (r : JobResponse) : JSON :=
  JObject [("job_id", JNumber (JobResponse_JobID r))].

Fixpoint lookup_field (key : string) (fields : list (string * JSON))
  : option JSON :=
  match fields with
  | [] => None
  | (k, v) :: rest => if decide (k = key) then Some v else lookup_field key rest
  end.

(** The value of a field of a JSON object, if it has that field. *)
Definition field (key : string) (v : JSON) : option JSON :=
  match v with
  | JObject fields => lookup_field key fields
  | _ => None
  end.

(** What a handler writes: a status code with a JSON body, or (through
    [http.Error]) with a plain-text message. *)
Inductive Response :=
| JSONResponse (code : Z) (body : JSON)
| TextResponse (code : Z) (body : string).

Definition StatusCreated : Z := 201.
Definition StatusBadRequest : Z := 400.
Definition StatusMethodNotAllowed : Z := 405.
Definition MethodGet : string := "GET".
Definition MethodPost : string := "POST".

Definition responseError (message : string) : Response :=
  JSONResponse StatusBadRequest (JObject [("error", JString message)]).

(** [strconv.Atoi]: an optional sign, then one or more decimal digits, the
    value within [int]; [strconv.Itoa] is [pretty]. *)
Definition digit (c : ascii) : option Z :=
  let n := Z.of_nat (nat_of_ascii c) in
  if decide (48 ≤ n ≤ 57)%Z then Some (n - 48)%Z else None.

Fixpoint digits (s : string) (acc : Z) : option Z :=
  match s with
  | EmptyString => Some acc
  | String c s' =>
      match digit c with
      | Some d => digits s' (10 * acc + d)%Z
      | None => None
      end
  end.

Definition Atoi (s : string) : option Z :=
  let '(neg, body) :=
    match s with
    | String "-"%char t => (true, t)
    | String "+"%char t => (false, t)
    | _ => (false, s)
    end in
  match body with
  | EmptyString => None
  | _ =>
      match digits body 0 with
      | Some n =>
          let v := if neg : bool then (- n)%Z else n in
          if decide (- 2^63 ≤ v < 2^63)%Z then Some v else None
      | None => None
      end
  end.

Definition Itoa (n : Z) : string := pretty n.

(** The process: the registry [jobs] maps a job id to the address of its
    [JobData]; [heap] holds the allocated job objects, each with the
    goroutines working on it. *)
Record Server := {
  jobs : gmap Z nat;
  heap : list Proc;
  nextJobID : Z;
}.

Definition initial : Server := {| jobs := ∅; heap := []; nextJobID := 1 |}.

Definition getJob (sv : Server) (jobID : Z) : option JobData :=
  a ← jobs sv !! jobID; job <$> heap sv !! a.

(** The handler reads the job without taking [job.mu]; its reads are taken
    as one snapshot of the job. *)
Definition handleJobStatus (method jobIDStr : string) (sv : Server) : Response :=
  if decide (method ≠ MethodGet)
  then TextResponse StatusMethodNotAllowed "Method not allowed"
  else if decide (jobIDStr = "")
  then TextResponse StatusBadRequest "Missing job ID"
  else match Atoi jobIDStr with
       | None => TextResponse StatusBadRequest "Invalid job ID"
       | Some jobID =>
           match getJob sv jobID with
           | None => JSONResponse StatusBadRequest (JObject [])
           | Some j =>
               let response :=
                 {| JobStatusResponse_Status := Status j;
                    JobStatusResponse_JobID := Itoa (ID j);
                    JobStatusResponse_Errors :=
                      if decide (Status j = failed) then Errors j else [] |} in
               JSONResponse StatusOK (encode_JobStatusResponse response)
           end
       end.

Section Server.

Variable http_get : string → HttpOutcome.

(** The request body and [encoding/json]'s decoder for [SubmitJobRequest];
    the flag is [DisallowUnknownFields]. *)
Variable Body : Type.
Variable Decode : bool → Body → option SubmitJobRequest.

Definition handleSubmitJob (method : string) (body : Body) (now : Z)
    (sv : Server) : Response * Server :=
  if decide (method ≠ MethodPost) then (responseError "Invalid Method", sv)
  else
    match Decode true body with
    | None => (responseError "Invalid request payload", sv)
    | Some req =>
        if decide (Count req = 0%Z ∧ 0 < length (Visits req))
        then (responseError "Invalid request payload", sv)
        else if decide (Count req ≠ Z.of_nat (length (Visits req)))
        then (responseError "Count does not match number of visits", sv)
        else
          let jobID := nextJobID sv in
          let j := newJob jobID now in
          (JSONResponse StatusCreated
             (encode_JobResponse {| JobResponse_JobID := jobID |}),
           {| jobs := <[jobID := length (heap sv)]> (jobs sv);
              heap := heap sv ++ [processJob j req];
              nextJobID := wrap (jobID + 1) |})
    end.

(** What can happen next in the process: a request is served, or a goroutine
    of the job object at some address takes a step. *)
Inductive Action :=
| SubmitJob (method : string) (body : Body) (now : Z)
| JobStatus (method jobIDStr : string)
| Goroutine (addr : nat) (ev : Event).

Definition act (a : Action) (sv : Server) : option Server :=
  match a with
  | SubmitJob method body now => Some (handleSubmitJob method body now sv).2
  | JobStatus _ _ => Some sv
  | Goroutine addr ev =>
      p ← heap sv !! addr;
      p' ← step http_get ev p;
      Some {| jobs := jobs sv; heap := <[addr := p']> (heap sv);
              nextJobID := nextJobID sv |}
  end.

Fixpoint serve (acts : list Action) (sv : Server) : option Server :=
  match acts with
  | [] => Some sv
  | a :: acts' =>
      match act a sv with
      | Some sv' => serve acts' sv'
      | None => None
      end
  end.

End Server.

Arguments SubmitJob {Body} method body now.
Arguments JobStatus {Body} method jobIDStr.
Arguments Goroutine {Body} addr ev.

(** ** Vocabulary of the properties *)

Definition terminal (status : string) : Prop :=
  status = completed ∨ status = failed.

Definition known (visit : Visit) : Prop := is_Some (getStore (Visit_StoreID visit)).

(** The (store id, image URL) pairs of a visit, in submission order. *)
Definition pairs_of (visit : Visit) : list (string * string) :=
  pair (Visit_StoreID visit) <$> Visit_ImageURLs visit.

Definition all_pairs (visits : list Visit) : list (string * string) :=
  visits ≫= pairs_of.

Definition submitted_urls (req : SubmitJobRequest) : list string :=
  Visits req ≫= Visit_ImageURLs.

(** The pairs [processJob] dispatches a unit for: those of the visits before
    the first unknown store id. *)
Fixpoint dispatchable (visits : list Visit) : list (string * string) :=
  match visits with
  | [] => []
  | visit :: rest =>
      match getStore (Visit_StoreID visit) with
      | Some _ => pairs_of visit ++ dispatchable rest
      | None => []
      end
  end.

Fixpoint first_unknown (visits : list Visit) : option string :=
  match visits with
  | [] => None
  | visit :: rest =>
      match getStore (Visit_StoreID visit) with
      | Some _ => first_unknown rest
      | None => Some (Visit_StoreID visit)
      end
  end.

Definition remaining (c : Pc) : list Visit :=
  match c with
  | AtVisits visits => visits
  | AtImages _ _ visits => visits
  | Returned => []
  end.

(** The pairs the [processJob] thread has yet to dispatch. *)
Definition todo (c : Pc) : list (string * string) :=
  match c with
  | AtVisits visits => dispatchable visits
  | AtImages storeID imageURLs visits =>
      (pair storeID <$> imageURLs) ++ dispatchable visits
  | Returned => []
  end.

Definition unknown_store_error (storeID : string) : StoreError :=
  {| StoreError_StoreID := storeID; StoreError_Error := unknown_store_message |}.

(** The error the [processJob] thread itself has recorded. *)
Definition early_error (visits : list Visit) (c : Pc) : list StoreError :=
  match c with
  | Returned =>
      match first_unknown visits with
      | Some storeID => [unknown_store_error storeID]
      | None => []
      end
  | _ => []
  end.

Definition status_for (errors : list StoreError) (c : Pc) : string :=
  match errors with
  | [] => match c with Returned => completed | _ => ongoing end
  | _ => failed
  end.

(** Steps the [processJob] thread still has before it returns, and a bound on
    the steps left to the whole job. *)
Fixpoint visits_weight (visits : list Visit) : nat :=
  match visits with
  | [] => 1
  | visit :: rest => 2 + length (Visit_ImageURLs visit) + visits_weight rest
  end.

Definition pc_weight (c : Pc) : nat :=
  match c with
  | AtVisits visits => visits_weight visits
  | AtImages _ imageURLs visits => 1 + length imageURLs + visits_weight visits
  | Returned => 0
  end.

Definition weight (p : Proc) : nat := 2 * pc_weight (pc p) + length (units p).

Section Outcomes.

Variable http_get : string → HttpOutcome.

(** What the unit of a pair records. *)
Definition result_of (u : string * string) : option ImageResult :=
  match calculateImagePerimeter http_get u.1 u.2 with
  | inl result => Some result
  | inr _ => None
  end.

Definition error_of (u : string * string) : option StoreError :=
  match calculateImagePerimeter http_get u.1 u.2 with
  | inl _ => None
  | inr err => Some {| StoreError_StoreID := u.1; StoreError_Error := err |}
  end.

Definition fetch_succeeds (url : string) : Prop :=
  ∃ width height, downloadAndGetDimensions http_get url = inl (width, height).

Definition fetch_fails (url : string) : Prop :=
  ∃ err, downloadAndGetDimensions http_get url = inr err.

#[global] Instance fetch_succeeds_dec url : Decision (fetch_succeeds url).
Proof.
  unfold fetch_succeeds.
  destruct (downloadAndGetDimensions http_get url) as [[w h]|e];
    [left; eauto|right; intros (? & ? & ?); discriminate].
Defined.

#[global] Instance fetch_fails_dec url : Decision (fetch_fails url).
Proof.
  unfold fetch_fails.
  destruct (downloadAndGetDimensions http_get url) as [[w h]|e];
    [right; intros (? & ?); discriminate|left; eauto].
Defined.

(** Image sizes whose sum converts to [float64] without rounding; the
    decoders' sizes (at most 31 bits each) are far inside. *)
Definition dimensions_in_range (url : string) : Prop :=
  ∀ width height,
    downloadAndGetDimensions http_get url = inl (width, height) →
    (Z.abs (width + height) ≤ 2^53)%Z.

(** The bookkeeping of one job: every dispatchable pair is settled, in
    flight or still to dispatch, and the job holds exactly the outcomes of
    the settled ones. *)
Record accounted (visits : list Visit) (p : Proc)
    (settled : list (string * string)) : Prop := {
  acc_pairs : settled ++ units p ++ todo (pc p) ≡ₚ dispatchable visits;
  acc_results : Results (job p) ≡ₚ omap result_of settled;
  acc_errors :
    Errors (job p) ≡ₚ omap error_of settled ++ early_error visits (pc p);
  acc_wg : wg p = length (units p);
  acc_status : Status (job p) = status_for (Errors (job p)) (pc p);
  acc_unknown :
    pc p ≠ Returned → first_unknown (remaining (pc p)) = first_unknown visits;
  acc_joined :
    pc p = Returned → first_unknown visits = None → units p = [];
  acc_completedAt : CompletedAt (job p) = None ↔ pc p ≠ Returned;
}.

(** A state of a job's goroutines: reached from a freshly submitted job by
    some schedule. *)
Definition job_state (p : Proc) : Prop :=
  ∃ jobID created req evs,
    run http_get evs (processJob (newJob jobID created) req) = Some p.

End Outcomes.

(** ** Statements of the specification that the code does not meet *)

Section AsStated.

Variable http_get : string → HttpOutcome.
Variable Body : Type.
Variable Decode : bool → Body → option SubmitJobRequest.

(** "Once a job reaches a terminal status, no subsequent step of the system
    changes its status, results or errors." *)
Definition frozen_once_terminal : Prop :=
  ∀ acts sv addr p acts' sv' p',
    serve http_get Body Decode acts initial = Some sv →
    heap sv !! addr = Some p →
    terminal (Status (job p)) →
    serve http_get Body Decode acts' sv = Some sv' →
    heap sv' !! addr = Some p' →
    (Status (job p'), Results (job p'), Errors (job p'))
      = (Status (job p), Results (job p), Errors (job p)).

End AsStated.

(** ** Sample worlds and submissions *)

Definition visit_A (imageURLs : list string) : Visit :=
  {| Visit_StoreID := "S00339218"; Visit_ImageURLs := imageURLs;
     Visit_VisitTime := "t" |}.

Definition visit_unknown (imageURLs : list string) : Visit :=
  {| Visit_StoreID := "UNKNOWN"; Visit_ImageURLs := imageURLs;
     Visit_VisitTime := "t" |}.

Definition image_100x50 : HttpOutcome :=
  Responded 200 (Decoded {| MinX := 0; MinY := 0; MaxX := 100; MaxY := 50 |}).

Definition not_found : HttpOutcome := Responded 404 (Undecodable "").

Definition web_up : string → HttpOutcome := λ _, image_100x50.
Definition web_down : string → HttpOutcome := λ _, not_found.
Definition web_partial : string → HttpOutcome :=
  λ url, if decide (url = "urlA") then image_100x50 else not_found.

Definition request_one : SubmitJobRequest :=
  {| Count := 1; Visits := [visit_A ["urlA"]] |}.
Definition request_two : SubmitJobRequest :=
  {| Count := 1; Visits := [visit_A ["urlA"; "urlB"]] |}.
Definition request_unknown : SubmitJobRequest :=
  {| Count := 1; Visits := [visit_unknown ["urlA"]] |}.
Definition request_then_unknown : SubmitJobRequest :=
  {| Count := 2; Visits := [visit_A ["urlA"]; visit_unknown ["urlB"]] |}.
Definition request_empty : SubmitJobRequest := {| Count := 0; Visits := [] |}.
Definition request_miscounted : SubmitJobRequest :=
  {| Count := 3; Visits := [visit_A ["urlA"]] |}.

(** A request body reduced to what the handler looks at: the fields the
    decoder maps into the request, and the names of any other fields. *)
Record Payload := {
  payload_request : SubmitJobRequest;
  payload_other_fields : list string;
}.

Definition decode_payload (disallowUnknownFields : bool) (body : Payload)
  : option SubmitJobRequest :=
  match payload_other_fields body with
  | [] => Some (payload_request body)
  | _ => if disallowUnknownFields then None else Some (payload_request body)
  end.

Definition has_other_fields (body : Payload) : Prop :=
  payload_other_fields body ≠ [].

(** Schedules of the process: [request_two] is submitted, [processJob]
    scans its visit and dispatches both units, and the first unit settles;
    then the second unit settles. *)
Definition until_first_unit : list (Action SubmitJobRequest) :=
  [SubmitJob MethodPost request_two 0;
   Goroutine 0 (Main 1); Goroutine 0 (Main 1); Goroutine 0 (Main 1);
   Goroutine 0 (Unit 0)].

Definition second_unit : list (Action SubmitJobRequest) :=
  [Goroutine 0 (Unit 0)].

(** ** Vocabulary of the further properties *)

(** [processJob] has returned and every unit it dispatched has settled. *)
Definition quiescent (p : Proc) : Prop := pc p = Returned ∧ units p = [].

(** Bounds with 32-bit coordinates, the minimum corner not beyond the
    maximum one: what the decoders produce. *)
Definition image_bounds (b : Rectangle) : Prop :=
  (- 2^31 ≤ MinX b)%Z ∧ (MinX b ≤ MaxX b)%Z ∧ (MaxX b < 2^31)%Z ∧
  (- 2^31 ≤ MinY b)%Z ∧ (MinY b ≤ MaxY b)%Z ∧ (MaxY b < 2^31)%Z.

(** An action that runs a goroutine of the job object at [addr], and an
    action that is a submission. *)
Definition runs_goroutine_of {Body} (addr : nat) (a : Action Body) : Prop :=
  match a with
  | Goroutine addr' _ => addr' = addr
  | _ => False
  end.

Definition is_submission {Body} (a : Action Body) : Prop :=
  match a with
  | SubmitJob _ _ _ => True
  | _ => False
  end.

(** The submissions [handleSubmitJob] accepts. *)
Definition accepted {Body} (Decode : bool → Body → option SubmitJobRequest)
    (method : string) (body : Body) (req : SubmitJobRequest) : Prop :=
  method = MethodPost ∧ Decode true body = Some req ∧
  Count req = Z.of_nat (length (Visits req)).

(** The registry of a process state: every registered id leads to an
    allocated job object that carries this id, and the next id follows the
    number of objects allocated. *)
Definition registry_ok (sv : Server) : Prop :=
  (∀ id a, jobs sv !! id = Some a →
           ∃ p, heap sv !! a = Some p ∧ ID (job p) = id) ∧
  nextJobID sv = wrap (1 + Z.of_nat (length (heap sv))) ∧
  ((Z.of_nat (length (heap sv)) < 2^63 - 1)%Z →
   ∀ id a, jobs sv !! id = Some a ↔
           a < length (heap sv) ∧ id = (Z.of_nat a + 1)%Z).

(** The goroutine events of a job as actions of the process. *)
Definition goroutine_actions {Body} (addr : nat) (evs : list Event)
  : list (Action Body) :=
  Goroutine addr <$> evs.

(** More sample data: an image with an offset origin, two schedules of
    [request_two] that settle its units in opposite orders, and a process
    that has served three submissions, the second one rejected. *)
Definition offset_bounds : Rectangle :=
  {| MinX := 10; MinY := 20; MaxX := 110; MaxY := 70 |}.

Definition web_offset : string → HttpOutcome :=
  λ _, Responded 200 (Decoded offset_bounds).

Definition schedule_AB : list Event :=
  [Main 1; Main 2; Main 3; Main 4; Unit 0; Unit 0; Main 5].
Definition schedule_BA : list Event :=
  [Main 1; Main 2; Main 3; Unit 1; Main 4; Unit 0; Main 6].

Definition three_submissions : list (Action SubmitJobRequest) :=
  [SubmitJob MethodPost request_one 0;
   SubmitJob MethodPost request_miscounted 1;
   SubmitJob MethodPost request_then_unknown 2;
   Goroutine 0 (Main 3)].

Definition poll_and_other_job : list (Action SubmitJobRequest) :=
  [JobStatus MethodGet "1"; Goroutine 1 (Main 5)].

Definition store_A : Store :=
  {| Store_StoreID := "S00339218"; Store_StoreName := "Store A";
     Store_AreaCode := "NYC" |}.

Definition result_urlA : ImageResult :=
  {| StoreID := "S00339218"; StoreName := "Store A"; AreaCode := "NYC";
     ImageURL := "urlA"; Width := 100; Height := 50; Perimeter := 300 |}.

(** ** The status handler beside a writer *)

(** The two writes a failing unit (main.go:192-196) and the early return of
    [processJob] (main.go:171-175) make under [job.mu], in program order:
    first the status, then the error list.  [record_error] is the two
    together. *)
Definition set_failed (j : JobData) : JobData :=
  {| ID := ID j; Status := failed; Results := Results j; Errors := Errors j;
     CreatedAt := CreatedAt j; CompletedAt := CompletedAt j |}.

Definition append_error (j : JobData) (storeID msg : string) : JobData :=
  {| ID := ID j; Status := Status j; Results := Results j;
     Errors := Errors j ++ [ {| StoreError_StoreID := storeID;
                                StoreError_Error := msg |} ];
     CreatedAt := CreatedAt j; CompletedAt := CompletedAt j |}.

(** [handleJobStatus] from the point where it holds the job (main.go:296-306).
    It does not take [job.mu], so each of its reads sees the job as it stands
    at that moment: [at_298] when [job.Status] and [job.ID] are copied into
    the response, [at_302] when [job.Status] is tested, [at_303] when
    [job.Errors] is copied. *)
Definition status_response (at_298 at_302 at_303 : JobData) : Response :=
  let response :=
    {| JobStatusResponse_Status := Status at_298;
       JobStatusResponse_JobID := Itoa (ID at_298);
       JobStatusResponse_Errors :=
         if decide (Status at_302 = failed) then Errors at_303 else [] |} in
  JSONResponse StatusOK (encode_JobStatusResponse response).

(** ** Fetches whose outcome is observed *)

(** A schedule that also records what each fetch returned: [Ran now] is a
    step of [processJob], [Fetched i outcome] is unit [i] whose [http.Get]
    returned [outcome].  Nothing ties the outcome to the URL: the same URL
    can be answered differently by two fetches. *)
Inductive Observation :=
  | Ran (now : Z)
  | Fetched (i : nat) (outcome : HttpOutcome).

Definition event_of (ob : Observation) : Event :=
  match ob with
  | Ran now => Main now
  | Fetched i _ => Unit i
  end.

Definition step_observed (ob : Observation) (p : Proc) : option Proc :=
  match ob with
  | Ran now => step_main now p
  | Fetched i outcome => step_unit (λ _, outcome) i p
  end.

Fixpoint run_observed (obs : list Observation) (p : Proc) : option Proc :=
  match obs with
  | [] => Some p
  | ob :: obs' =>
      match step_observed ob p with
      | Some p' => run_observed obs' p'
      | None => None
      end
  end.

(** Every fetch of the observed schedule returned what [http_get] gives for
    the URL fetched: the outcome of a fetch depends on the URL alone. *)
Fixpoint fetches_agree (http_get : string → HttpOutcome)
    (obs : list Observation) (p : Proc) : Prop :=
  match obs with
  | [] => True
  | ob :: obs' =>
      match ob with
      | Ran _ => True
      | Fetched i outcome =>
          match units p !! i with
          | Some (_, imageURL) => outcome = http_get imageURL
          | None => True
          end
      end ∧
      match step_observed ob p with
      | Some p' => fetches_agree http_get obs' p'
      | None => True
      end
  end.

(** Observed schedules of [request_two].  In the first two the server
    answers the first fetch it receives with the image and the second with
    404, and they differ in which unit fetches first.  In the first and the
    third urlA is answered with the image and urlB with 404, whenever they
    are fetched. *)
Definition observed_A_first : list Observation :=
  [Ran 1; Ran 2; Ran 3; Ran 4;
   Fetched 0 image_100x50; Fetched 0 not_found; Ran 5].
Definition observed_B_first : list Observation :=
  [Ran 1; Ran 2; Ran 3; Ran 4;
   Fetched 1 image_100x50; Fetched 0 not_found; Ran 5].
Definition observed_B_failed_first : list Observation :=
  [Ran 1; Ran 2; Ran 3; Fetched 1 not_found; Ran 4;
   Fetched 0 image_100x50; Ran 6].

(** * Properties of one job's goroutines *)

Section JobTheory.

Variable http_get : string → HttpOutcome.

Local Abbreviation step := (step http_get).
Local Abbreviation run := (run http_get).
Local Abbreviation accounted := (accounted http_get).
Local Abbreviation result_of := (result_of http_get).
Local Abbreviation error_of := (error_of http_get).

Lemma run_app evs1 evs2 p :
  run (evs1 ++ evs2) p = run evs1 p ≫= run evs2.
Proof.
  revert p. induction evs1 as [|ev evs1 IH]; intros p; simpl; [done|].
  destruct (step ev p); simpl; auto.
Qed.

Lemma run_snoc evs ev p p' :
  run evs p = Some p' → run (evs ++ [ev]) p = step ev p'.
Proof.
  intros H. rewrite run_app, H. simpl. by destruct (step ev p').
Qed.

(** Induction over schedules, extending them at the end. *)
Lemma run_ind (P : Proc → Prop) p0 :
  P p0 →
  (∀ p ev p', P p → step ev p = Some p' → P p') →
  ∀ evs p, run evs p0 = Some p → P p.
Proof.
  intros H0 Hstep evs. induction evs as [|ev evs IH] using rev_ind; intros p Hrun.
  - simpl in Hrun. by simplify_eq.
  - rewrite run_app in Hrun.
    destruct (run evs p0) as [q|] eqn:Hq; simpl in Hrun; [|done].
    destruct (step ev q) as [q'|] eqn:Hq'; simpl in Hrun; [|done].
    simplify_eq. eauto.
Qed.

Lemma status_for_snoc errors e c : status_for (errors ++ [e]) c = failed.
Proof. by destruct errors. Qed.

Lemma dispatchable_known u visits :
  u ∈ dispatchable visits → is_Some (getStore u.1).
Proof.
  induction visits as [|v rest IH]; simpl; [by intros ?%elem_of_nil|].
  destruct (getStore (Visit_StoreID v)) eqn:Hv; [|by intros ?%elem_of_nil].
  rewrite elem_of_app. intros [Hu|Hu]; [|auto].
  unfold pairs_of in Hu. apply list_elem_of_fmap in Hu as (url & -> & _).
  simpl. by rewrite Hv.
Qed.

Lemma dispatchable_all_known visits :
  Forall known visits → dispatchable visits = all_pairs visits.
Proof.
  induction 1 as [|v rest [s Hv] _ IH]; [done|].
  simpl. rewrite Hv, IH. done.
Qed.

Lemma first_unknown_None visits :
  first_unknown visits = None ↔ Forall known visits.
Proof.
  induction visits as [|v rest IH]; simpl; [by split; [constructor|]|].
  destruct (getStore (Visit_StoreID v)) eqn:Hv.
  - rewrite IH. split.
    + intros H. apply Forall_cons_2; [|done]. unfold known. rewrite Hv. eauto.
    + by inversion 1.
  - split; [done|]. inversion 1 as [|?? [? Hk]]; subst. congruence.
Qed.

Lemma first_unknown_Some visits storeID :
  first_unknown visits = Some storeID ↔
  ∃ before visit after,
    visits = before ++ visit :: after ∧ Forall known before ∧
    getStore (Visit_StoreID visit) = None ∧ storeID = Visit_StoreID visit.
Proof.
  induction visits as [|v rest IH]; simpl.
  - split; [done|]. intros (b & ? & ? & Hb & _). by destruct b.
  - destruct (getStore (Visit_StoreID v)) eqn:Hv.
    + rewrite IH. split.
      * intros (b & v' & a & -> & Hb & Hn & ->).
        exists (v :: b), v', a. repeat split; auto.
        apply Forall_cons_2; [|done]. unfold known. rewrite Hv. eauto.
      * intros (b & v' & a & Heq & Hb & Hn & ->).
        destruct b as [|v0 b]; simpl in Heq; simplify_eq.
        inversion Hb; subst. exists b, v', a. auto.
    + split.
      * intros ?; simplify_eq. exists [], v, rest. repeat split; auto.
      * intros (b & v' & a & Heq & Hb & Hn & ->).
        destruct b as [|v0 b]; simpl in Heq; simplify_eq; [done|].
        inversion Hb as [|?? [? Hk]]; subst. congruence.
Qed.

Lemma dispatchable_prefix before visit after :
  Forall known before → getStore (Visit_StoreID visit) = None →
  dispatchable (before ++ visit :: after) = all_pairs before.
Proof.
  intros Hb Hn. induction Hb as [|v rest [s Hv] _ IH]; simpl.
  - by rewrite Hn.
  - rewrite Hv, IH. done.
Qed.

(** *** The bookkeeping is an invariant *)

Lemma accounted_start jobID now req :
  accounted (Visits req) (processJob (newJob jobID now) req) [].
Proof. split; simpl; try done. Qed.

Local Ltac completedAt_field H :=
  split; [done|]; first [by intros []|intros _; by apply H].

Lemma accounted_step visits p settled ev p' :
  accounted visits p settled → step ev p = Some p' →
  ∃ settled', accounted visits p' settled'.
Proof.
  intros [Hpairs Hres Herr Hwg Hst Hunk Hjoin Hdone] Hstep.
  destruct p as [j c n us]; simpl in *.
  destruct ev as [now|i]; simpl in Hstep.
  - unfold step_main in Hstep; simpl in Hstep.
    assert (c ≠ Returned → first_unknown (remaining c) = first_unknown visits)
      as Hfirst by done.
    destruct c as [[|visit rest]|storeID [|url urls] rest|]; [| | | |done];
      specialize (Hfirst ltac:(discriminate)); simpl in *.
    + (* the join: wg.Wait() has returned *)
      case_decide; [|done]. simplify_eq. destruct us; [|done].
      exists settled. split; simpl; try done; try completedAt_field Hdone.
      * by rewrite <- Hfirst.
      * rewrite Hst. destruct (Errors j); simpl; try case_decide; done.
    + destruct (getStore (Visit_StoreID visit)) eqn:Hv; simplify_eq.
      * (* known store: on to its images *)
        exists settled. split; simpl; try done; try completedAt_field Hdone.
      * (* unknown store: early return *)
        exists settled. split; simpl; try done; try completedAt_field Hdone.
        -- rewrite <- Hfirst. rewrite Herr, app_nil_r. done.
        -- by rewrite status_for_snoc.
        -- intros _ Hnone. rewrite <- Hfirst in Hnone. done.
    + (* end of the image loop *)
      simplify_eq.
      exists settled. split; simpl; try done; try completedAt_field Hdone.
    + (* one unit dispatched *)
      simplify_eq.
      exists settled. split; simpl; try done; try completedAt_field Hdone.
      * rewrite <- Hpairs. rewrite <- !app_assoc. done.
      * rewrite length_app. simpl. lia.
  - (* a unit settles *)
    unfold step_unit in Hstep; simpl in Hstep.
    destruct (us !! i) as [[storeID url]|] eqn:Hi; [|done]. simplify_eq.
    pose proof (delete_Permutation _ _ _ Hi) as Hdel.
    exists (settled ++ [(storeID, url)]). split; simpl; try done.
    + rewrite <- Hpairs. rewrite <- !app_assoc. apply Permutation_app_head.
      symmetry. etrans; [apply Permutation_app_tail, Hdel|done].
    + rewrite omap_app. simpl. unfold result_of at 2. simpl.
      destruct (calculateImagePerimeter _ _ _); simpl.
      * by rewrite Hres.
      * by rewrite app_nil_r.
    + rewrite omap_app. simpl. unfold error_of at 2. simpl.
      destruct (calculateImagePerimeter _ _ _); simpl.
      * by rewrite app_nil_r.
      * rewrite Herr. rewrite <- !app_assoc. apply Permutation_app_head.
        apply Permutation_app_comm.
    + rewrite length_delete by eauto. lia.
    + destruct (calculateImagePerimeter _ _ _); simpl; [done|].
      by rewrite status_for_snoc.
    + intros Hc Hn. rewrite (Hjoin Hc Hn) in Hi. done.
    + destruct (calculateImagePerimeter _ _ _); simpl; done.
Qed.

Lemma accounted_run jobID now req evs p :
  run evs (processJob (newJob jobID now) req) = Some p →
  ∃ settled, accounted (Visits req) p settled.
Proof.
  apply (run_ind (λ p, ∃ settled, accounted (Visits req) p settled)).
  - eexists. apply accounted_start.
  - intros q ev q' [settled Hq] Hstep. eauto using accounted_step.
Qed.

(** *** Every schedule is finite *)

Lemma step_weight ev p p' : step ev p = Some p' → weight p' < weight p.
Proof.
  destruct p as [j c n us]. destruct ev as [now|i]; simpl.
  - unfold step_main, weight; simpl.
    destruct c as [[|visit rest]|storeID [|url urls] rest|]; simpl.
    + case_decide; [|done]. intros; simplify_eq. simpl. lia.
    + destruct (getStore (Visit_StoreID visit)); intros; simplify_eq; simpl; lia.
    + intros; simplify_eq; simpl; lia.
    + intros; simplify_eq; simpl. rewrite length_app; simpl; lia.
    + done.
  - unfold step_unit, weight; simpl.
    destruct (us !! i) as [[??]|] eqn:Hi; [|done].
    intros; simplify_eq; simpl. rewrite length_delete by eauto.
    apply lookup_lt_Some in Hi. lia.
Qed.

Lemma run_weight evs p p' :
  run evs p = Some p' → length evs + weight p' ≤ weight p.
Proof.
  revert p. induction evs as [|ev evs IH]; intros p; simpl.
  - intros; simplify_eq; lia.
  - destruct (step ev p) as [q|] eqn:Hs; [|done].
    intros H. apply IH in H. apply step_weight in Hs. lia.
Qed.

(** *** No deadlock before [processJob] returns *)

Lemma main_enabled p now :
  pc p ≠ Returned → pc p ≠ AtVisits [] → ∃ p', step (Main now) p = Some p'.
Proof.
  destruct p as [j c n us]; simpl. unfold step_main; simpl.
  destruct c as [[|visit rest]|storeID [|url urls] rest|]; try done; eauto.
  destruct (getStore (Visit_StoreID visit)); eauto.
Qed.

Lemma unit_enabled p : units p ≠ [] → ∃ p', step (Unit 0) p = Some p'.
Proof.
  destruct p as [j c n [|[storeID url] us]]; simpl; [done|].
  unfold step_unit; simpl. eauto.
Qed.

Lemma step_enabled p :
  wg p = length (units p) → pc p ≠ Returned → ∃ ev p', step ev p = Some p'.
Proof.
  destruct p as [j c n us]; simpl. intros -> Hc.
  destruct c as [[|visit rest]|storeID [|url urls] rest|]; [..|done].
  - destruct us as [|[storeID url] us].
    + exists (Main 0). eexists. reflexivity.
    + exists (Unit 0). eexists. reflexivity.
  - exists (Main 0). simpl. unfold step_main; simpl.
    destruct (getStore (Visit_StoreID visit)); eauto.
  - exists (Main 0). eexists. reflexivity.
  - exists (Main 0). eexists. reflexivity.
Qed.

Lemma quiescent_stuck ev p :
  pc p = Returned → units p = [] → step ev p = None.
Proof.
  destruct p as [j c n us]; simpl. intros -> ->.
  destruct ev; done.
Qed.

Lemma returned_main_stuck now p : pc p = Returned → step (Main now) p = None.
Proof. destruct p as [j c n us]; simpl. by intros ->. Qed.

(** *** What a step may change *)

Lemma step_failed ev p p' :
  step ev p = Some p' → Status (job p) = failed → Status (job p') = failed.
Proof.
  destruct p as [j c n us]. destruct ev as [now|i]; simpl.
  - unfold step_main; simpl.
    destruct c as [[|visit rest]|storeID [|url urls] rest|]; simpl; try done.
    + case_decide; [|done]. intros ? Hf; simplify_eq. simpl.
      rewrite Hf. done.
    + destruct (getStore (Visit_StoreID visit)); intros; by simplify_eq.
    + intros; by simplify_eq.
    + intros; by simplify_eq.
  - unfold step_unit; simpl. destruct (us !! i) as [[??]|]; [|done].
    intros; simplify_eq; simpl. by destruct (calculateImagePerimeter _ _ _).
Qed.

Lemma step_prefix ev p p' :
  step ev p = Some p' →
  Results (job p) `prefix_of` Results (job p') ∧
  Errors (job p) `prefix_of` Errors (job p').
Proof.
  destruct p as [j c n us]. destruct ev as [now|i]; simpl.
  - unfold step_main; simpl.
    destruct c as [[|visit rest]|storeID [|url urls] rest|]; simpl; try done.
    + case_decide; [|done]. intros; by simplify_eq.
    + destruct (getStore (Visit_StoreID visit)); intros; simplify_eq; simpl; [done|].
      split; [done|]. by apply prefix_app_r.
    + intros; by simplify_eq.
    + intros; by simplify_eq.
  - unfold step_unit; simpl. destruct (us !! i) as [[??]|]; [|done].
    intros; simplify_eq; simpl.
    destruct (calculateImagePerimeter _ _ _); simpl;
      split; try done; by apply prefix_app_r.
Qed.

Lemma run_failed evs p p' :
  run evs p = Some p' → Status (job p) = failed → Status (job p') = failed.
Proof.
  revert p. induction evs as [|ev evs IH]; intros p; simpl.
  - intros; by simplify_eq.
  - destruct (step ev p) as [q|] eqn:Hs; [|done]. eauto using step_failed.
Qed.

Lemma run_prefix evs p p' :
  run evs p = Some p' →
  Results (job p) `prefix_of` Results (job p') ∧
  Errors (job p) `prefix_of` Errors (job p').
Proof.
  revert p. induction evs as [|ev evs IH]; intros p; simpl.
  - intros; by simplify_eq.
  - destruct (step ev p) as [q|] eqn:Hs; [|done]. intros Hq.
    destruct (step_prefix _ _ _ Hs), (IH _ Hq). split; by etrans.
Qed.

Lemma run_quiescent evs p p' :
  pc p = Returned → units p = [] → run evs p = Some p' → evs = [] ∧ p' = p.
Proof.
  intros Hc Hus. destruct evs as [|ev evs]; simpl.
  - intros; by simplify_eq.
  - by rewrite quiescent_stuck.
Qed.

(** *** Messages of the errors a unit records *)

Lemma download_error_message url err :
  downloadAndGetDimensions http_get url = inr err →
  ∃ rest, err = "error " +:+ rest.
Proof.
  unfold downloadAndGetDimensions.
  destruct (http_get url) as [e|e|code [e|bounds]];
    repeat case_decide; intros; simplify_eq; simpl; eauto.
Qed.

Lemma unit_error_message storeID url err :
  calculateImagePerimeter http_get storeID url = inr err →
  err ≠ unknown_store_message ∧
  (is_Some (getStore storeID) →
   err ≠ "store ID " +:+ storeID +:+ " does not exist").
Proof.
  unfold calculateImagePerimeter.
  destruct (getStore storeID) as [store|].
  - destruct (downloadAndGetDimensions http_get url) as [[w h]|e] eqn:Hd; [done|].
    intros; simplify_eq. apply download_error_message in Hd as [rest ->].
    split; [done|]. intros _. done.
  - intros; simplify_eq. split; [done|]. by intros [].
Qed.

Lemma error_of_message u e :
  error_of u = Some e → StoreError_Error e ≠ unknown_store_message.
Proof.
  unfold error_of.
  destruct (calculateImagePerimeter http_get u.1 u.2) as [r|err] eqn:Hc; [done|].
  intros; simplify_eq. simpl. by apply (unit_error_message _ _ _ Hc).
Qed.

(** *** What a unit records *)

Lemma wrap_small n : (- 2^63 ≤ n < 2^63)%Z → wrap n = n.
Proof. intros H. unfold wrap. rewrite Z.mod_small; lia. Qed.

Lemma float64_of_int_exact n : (Z.abs n ≤ 2^53)%Z → float64_of_int n = n.
Proof.
  intros H. unfold float64_of_int.
  destruct (Z.ltb_spec (Z.abs n) (2^53)) as [|Hge]; [done|].
  assert (n = 2^53 ∨ n = - 2^53)%Z as [-> | ->] by lia; reflexivity.
Qed.

Lemma result_of_succeeds storeID url :
  is_Some (getStore storeID) → fetch_succeeds http_get url →
  ∃ r, result_of (storeID, url) = Some r ∧ error_of (storeID, url) = None ∧
       ImageURL r = url ∧
       downloadAndGetDimensions http_get url = inl (Width r, Height r) ∧
       (dimensions_in_range http_get url →
        Perimeter r = (2 * (Width r + Height r))%Z).
Proof.
  intros [store Hs] (w & h & Hd).
  unfold result_of, error_of, calculateImagePerimeter; simpl.
  rewrite Hs, Hd. eexists. repeat split; simpl; try done.
  intros Hrange. specialize (Hrange _ _ Hd).
  rewrite wrap_small by lia. by rewrite float64_of_int_exact.
Qed.

Lemma error_of_fails storeID url :
  is_Some (getStore storeID) → fetch_fails http_get url →
  result_of (storeID, url) = None ∧
  ∃ err, error_of (storeID, url)
         = Some {| StoreError_StoreID := storeID; StoreError_Error := err |}.
Proof.
  intros [store Hs] (err & Hd).
  unfold result_of, error_of, calculateImagePerimeter; simpl.
  rewrite Hs, Hd. eauto.
Qed.

Lemma fetch_succeeds_or_fails url :
  fetch_succeeds http_get url ∨ fetch_fails http_get url.
Proof.
  unfold fetch_succeeds, fetch_fails.
  destruct (downloadAndGetDimensions http_get url) as [[w h]|e]; eauto.
Qed.

Lemma fetch_fails_not_succeeds url :
  fetch_fails http_get url ↔ ¬ fetch_succeeds http_get url.
Proof.
  unfold fetch_succeeds, fetch_fails.
  destruct (downloadAndGetDimensions http_get url) as [[w h]|e].
  - split; [by intros [??]|]. intros []. eauto.
  - split; [by intros _ (? & ? & ?)|]. eauto.
Qed.

(** The outcomes of a list of pairs whose store ids are all known. *)
Lemma outcomes_known (l : list (string * string)) :
  Forall (λ u, is_Some (getStore u.1)) l →
  ImageURL <$> omap result_of l = filter (fetch_succeeds http_get) l.*2 ∧
  length (omap error_of l) = length (filter (fetch_fails http_get) l.*2) ∧
  Forall (λ r, downloadAndGetDimensions http_get (ImageURL r)
               = inl (Width r, Height r) ∧
               (dimensions_in_range http_get (ImageURL r) →
                Perimeter r = (2 * (Width r + Height r))%Z))
         (omap result_of l).
Proof.
  induction 1 as [|[storeID url] l Hs _ (IH1 & IH2 & IH3)]; [done|].
  simpl in Hs. simpl. rewrite !filter_cons. simpl.
  destruct (fetch_succeeds_or_fails url) as [Hok|Hko].
  - destruct (result_of_succeeds storeID url Hs Hok)
      as (r & -> & -> & Hurl & Hdim & Hper).
    rewrite decide_True by done.
    rewrite decide_False
      by (intros Hf; by apply (proj1 (fetch_fails_not_succeeds url)) in Hf).
    simpl. split_and!.
    + f_equal; [exact Hurl|exact IH1].
    + exact IH2.
    + constructor; [by rewrite Hurl|exact IH3].
  - destruct (error_of_fails storeID url Hs Hko) as (-> & err & ->).
    rewrite decide_False by (by apply (proj1 (fetch_fails_not_succeeds url))).
    rewrite decide_True by done.
    simpl. split_and!.
    + exact IH1.
    + f_equal. exact IH2.
    + exact IH3.
Qed.

Lemma all_pairs_known visits :
  Forall known visits → Forall (λ u, is_Some (getStore u.1)) (all_pairs visits).
Proof.
  intros Hk. apply Forall_forall. intros u Hu.
  rewrite <- dispatchable_all_known in Hu by done.
  by apply dispatchable_known in Hu.
Qed.

Lemma pairs_of_urls visit : (pairs_of visit).*2 = Visit_ImageURLs visit.
Proof.
  unfold pairs_of. induction (Visit_ImageURLs visit) as [|url urls IH]; [done|].
  simpl. f_equal. exact IH.
Qed.

Lemma all_pairs_urls visits : (all_pairs visits).*2 = visits ≫= Visit_ImageURLs.
Proof.
  unfold all_pairs. induction visits as [|v rest IH]; [done|].
  by rewrite !bind_cons, fmap_app, IH, pairs_of_urls.
Qed.

(** *** The job once [processJob] has joined its units *)

Lemma accounted_joined visits p settled :
  accounted visits p settled → Forall known visits → pc p = Returned →
  units p = [] ∧
  Results (job p) ≡ₚ omap result_of (all_pairs visits) ∧
  Errors (job p) ≡ₚ omap error_of (all_pairs visits) ∧
  Status (job p) = status_for (Errors (job p)) Returned.
Proof.
  intros [Hpairs Hres Herr Hwg Hst Hunk Hjoin Hdone] Hk Hc.
  pose proof (proj2 (first_unknown_None visits) Hk) as Hnone.
  specialize (Hjoin Hc Hnone).
  rewrite Hc in *. simpl in *. rewrite Hjoin, Hnone in *. simpl in *.
  rewrite !app_nil_r in *. rewrite dispatchable_all_known in Hpairs by done.
  repeat split; try done.
  - by rewrite Hres, Hpairs.
  - by rewrite Herr, Hpairs.
Qed.

Lemma accounted_units_known visits p settled u :
  accounted visits p settled → u ∈ units p → is_Some (getStore u.1).
Proof.
  intros [Hpairs _ _ _ _ _ _ _] Hu.
  apply (dispatchable_known u visits). rewrite <- Hpairs.
  rewrite !elem_of_app. auto.
Qed.

Lemma accounted_status visits p settled :
  accounted visits p settled →
  (Status (job p) = completed →
   Errors (job p) = [] ∧ pc p = Returned ∧ units p = []) ∧
  (Status (job p) = failed → Errors (job p) ≠ []) ∧
  (Status (job p) = ongoing → Errors (job p) = [] ∧ pc p ≠ Returned) ∧
  (Status (job p) = ongoing ∨ terminal (Status (job p))).
Proof.
  intros [Hpairs Hres Herr Hwg Hst Hunk Hjoin Hdone].
  rewrite Hst. unfold status_for, terminal.
  destruct (Errors (job p)) as [|e errs] eqn:He.
  - destruct (pc p) eqn:Hc; repeat split; try done; auto.
    apply Hjoin; [done|].
    simpl in Herr. destruct (first_unknown visits); [|done].
    apply Permutation_nil_l in Herr.
    by destruct (omap error_of settled).
  - repeat split; try done; auto.
Qed.

Lemma filter_all {A} (P : A → Prop) `{∀ x, Decision (P x)} (l : list A) :
  Forall P l → filter P l = l.
Proof.
  induction 1 as [|x l Hx _ IH]; [done|].
  by rewrite filter_cons, decide_True, IH.
Qed.

Lemma filter_none {A} (P : A → Prop) `{∀ x, Decision (P x)} (l : list A) :
  Forall (λ x, ¬ P x) l → filter P l = [].
Proof.
  induction 1 as [|x l Hx _ IH]; [done|].
  by rewrite filter_cons, decide_False, IH.
Qed.

Lemma filter_exists {A} (P : A → Prop) `{∀ x, Decision (P x)} (l : list A) :
  Exists P l → filter P l ≠ [].
Proof.
  induction 1 as [x l Hx|x l _ IH]; rewrite filter_cons.
  - by rewrite decide_True.
  - by destruct (decide (P x)).
Qed.

(** From every state a job reaches, some schedule brings [processJob] to its
    return with every unit settled. *)
Lemma accounted_returns visits p settled :
  accounted visits p settled →
  ∃ evs p', run evs p = Some p' ∧ pc p' = Returned ∧ units p' = [].
Proof.
  remember (weight p) as n eqn:Hn. revert p settled Hn.
  induction n as [n IH] using lt_wf_ind. intros p settled -> Hacc.
  assert ((pc p = Returned ∧ units p = []) ∨ ∃ ev p1, step ev p = Some p1)
    as [[Hc Hus]|(ev & p1 & Hp1)].
  { assert (pc p = Returned ∨ pc p ≠ Returned) as [Hc|Hc]
      by (destruct (pc p); auto).
    - destruct (decide (units p = [])) as [Hus|Hus]; [by left|right].
      destruct (unit_enabled p Hus) as [p1 Hp1]. eauto.
    - right. apply step_enabled; [apply Hacc|done]. }
  - by exists [], p.
  - destruct (accounted_step _ _ _ _ _ Hacc Hp1) as [settled1 Hacc1].
    destruct (IH (weight p1) (step_weight _ _ _ Hp1) p1 settled1 eq_refl Hacc1)
      as (evs & p' & Hrun & Hfinal).
    exists (ev :: evs), p'. simpl. by rewrite Hp1.
Qed.

Lemma run_returns jobID created req evs p :
  run evs (processJob (newJob jobID created) req) = Some p →
  ∃ evs' p', run evs' p = Some p' ∧ pc p' = Returned ∧ units p' = [].
Proof.
  intros Hrun. destruct (accounted_run _ _ _ _ _ Hrun) as [settled Hacc].
  by apply (accounted_returns _ _ _ Hacc).
Qed.

(** Everything the job holds when [processJob] has returned from a batch
    whose store ids are all known. *)
Lemma joined_outcomes jobID created req evs p :
  Forall known (Visits req) →
  run evs (processJob (newJob jobID created) req) = Some p →
  pc p = Returned →
  units p = [] ∧ is_Some (CompletedAt (job p)) ∧
  Status (job p) = status_for (Errors (job p)) Returned ∧
  Results (job p) ≡ₚ omap result_of (all_pairs (Visits req)) ∧
  Errors (job p) ≡ₚ omap error_of (all_pairs (Visits req)) ∧
  ImageURL <$> Results (job p)
    ≡ₚ filter (fetch_succeeds http_get) (submitted_urls req) ∧
  length (Errors (job p))
    = length (filter (fetch_fails http_get) (submitted_urls req)) ∧
  Forall (λ r, downloadAndGetDimensions http_get (ImageURL r)
               = inl (Width r, Height r) ∧
               (dimensions_in_range http_get (ImageURL r) →
                Perimeter r = (2 * (Width r + Height r))%Z))
         (Results (job p)).
Proof.
  intros Hk Hrun Hc.
  destruct (accounted_run _ _ _ _ _ Hrun) as [settled Hacc].
  destruct (accounted_joined _ _ _ Hacc Hk Hc) as (Hus & Hres & Herr & Hst).
  destruct (outcomes_known _ (all_pairs_known _ Hk)) as (Hurls & Hlen & Hall).
  rewrite all_pairs_urls in Hurls, Hlen.
  split_and!; try done.
  - destruct (CompletedAt (job p)) eqn:Hdone; [eauto|].
    by apply (acc_completedAt _ _ _ _ Hacc) in Hdone.
  - unfold submitted_urls. by rewrite Hres, Hurls.
  - unfold submitted_urls. by rewrite Herr, Hlen.
  - by rewrite Hres.
Qed.

(** ** C1 *)

(** C1. When every visit's store id is in the store master and every image
    fetch succeeds (with image sizes the decoders can produce), every
    schedule of [processJob] is finite, is never stuck before the thread has
    returned, can always be run on to that return, and leaves the job
    "completed" with no error and exactly one
    result per submitted image URL, each carrying the decoded width and
    height and perimeter 2 × (width + height). *)
Theorem processJob_completes_when_all_succeed jobID created req :
  Forall known (Visits req) →
  Forall (λ url, fetch_succeeds http_get url ∧ dimensions_in_range http_get url)
         (submitted_urls req) →
  ∀ evs p,
    run evs (processJob (newJob jobID created) req) = Some p →
    length evs ≤ weight (processJob (newJob jobID created) req) ∧
    (pc p ≠ Returned → ∃ ev p', step ev p = Some p') ∧
    (∃ evs' p', run evs' p = Some p' ∧ pc p' = Returned ∧ units p' = []) ∧
    (pc p = Returned →
     Status (job p) = completed ∧ Errors (job p) = [] ∧ units p = [] ∧
     is_Some (CompletedAt (job p)) ∧
     ImageURL <$> Results (job p) ≡ₚ submitted_urls req ∧
     Forall (λ r, downloadAndGetDimensions http_get (ImageURL r)
                  = inl (Width r, Height r) ∧
                  Perimeter r = (2 * (Width r + Height r))%Z)
            (Results (job p))).
Proof.
  intros Hk Hok evs p Hrun. split_and!.
  - apply run_weight in Hrun. lia.
  - destruct (accounted_run _ _ _ _ _ Hrun) as [settled Hacc].
    apply step_enabled, Hacc.
  - by apply (run_returns _ _ _ _ _ Hrun).
  - intros Hc.
    destruct (joined_outcomes _ _ _ _ _ Hk Hrun Hc)
      as (Hus & Hdone & Hst & _ & _ & Hurls & Hlen & Hall).
    rewrite filter_all in Hurls by (eapply Forall_impl; [exact Hok|by intros ? []]).
    rewrite filter_none in Hlen.
    2:{ eapply Forall_impl; [exact Hok|]. intros url [Hs _].
        by intros ?%fetch_fails_not_succeeds. }
    apply nil_length_inv in Hlen. rewrite Hlen in Hst.
    split_and!; try done.
    apply Forall_forall. intros r Hr.
    rewrite Forall_forall in Hall. destruct (Hall r Hr) as [Hdim Hper].
    split; [done|]. apply Hper.
    rewrite Forall_forall in Hok. apply Hok.
    rewrite <- Hurls. by apply list_elem_of_fmap_2.
Qed.

(** ** C5 *)

(** C5. When every store id is known but at least one image fetch fails,
    every schedule is finite and never stuck before [processJob] has
    returned, and the job ends "failed" holding one result for each image
    whose fetch succeeded and one error for each image whose fetch failed:
    the failures do not keep the other units from recording. *)
Theorem processJob_fails_with_partial_results jobID created req :
  Forall known (Visits req) →
  Exists (fetch_fails http_get) (submitted_urls req) →
  ∀ evs p,
    run evs (processJob (newJob jobID created) req) = Some p →
    length evs ≤ weight (processJob (newJob jobID created) req) ∧
    (pc p ≠ Returned → ∃ ev p', step ev p = Some p') ∧
    (∃ evs' p', run evs' p = Some p' ∧ pc p' = Returned ∧ units p' = []) ∧
    (pc p = Returned →
     Status (job p) = failed ∧ units p = [] ∧
     is_Some (CompletedAt (job p)) ∧
     Results (job p) ≡ₚ omap result_of (all_pairs (Visits req)) ∧
     Errors (job p) ≡ₚ omap error_of (all_pairs (Visits req)) ∧
     ImageURL <$> Results (job p)
       ≡ₚ filter (fetch_succeeds http_get) (submitted_urls req) ∧
     length (Errors (job p))
       = length (filter (fetch_fails http_get) (submitted_urls req)) ∧
     0 < length (Errors (job p))).
Proof.
  intros Hk Hko evs p Hrun. split_and!.
  - apply run_weight in Hrun. lia.
  - destruct (accounted_run _ _ _ _ _ Hrun) as [settled Hacc].
    apply step_enabled, Hacc.
  - by apply (run_returns _ _ _ _ _ Hrun).
  - intros Hc.
    destruct (joined_outcomes _ _ _ _ _ Hk Hrun Hc)
      as (Hus & Hdone & Hst & Hres & Herr & Hurls & Hlen & _).
    apply (filter_exists (fetch_fails http_get)) in Hko.
    assert (0 < length (Errors (job p))) as Hpos.
    { rewrite Hlen. destruct (filter _ _); [done|simpl; lia]. }
    split_and!; try done.
    rewrite Hst. destruct (Errors (job p)); [simpl in Hpos; lia|done].
Qed.

(** ** C2 *)

(** C2. When the batch has a visit with an unknown store id, with every
    visit before it known, the [processJob] thread is never blocked, every
    schedule is finite, and only images of the visits before the unknown one
    are ever dispatched or recorded.  Once the thread has returned the job is
    "failed", [CompletedAt] is set, the errors hold exactly one entry with
    the message "Store ID does not exist", the one for that store id, and
    the thread scans no further. *)
Theorem processJob_short_circuits_on_unknown_store
    jobID created req before visit after :
  Visits req = before ++ visit :: after →
  Forall known before →
  getStore (Visit_StoreID visit) = None →
  ∀ evs p,
    run evs (processJob (newJob jobID created) req) = Some p →
    length evs ≤ weight (processJob (newJob jobID created) req) ∧
    (pc p ≠ Returned → ∀ now, ∃ p', step (Main now) p = Some p') ∧
    (∃ evs' p', run evs' p = Some p' ∧ pc p' = Returned ∧ units p' = []) ∧
    (∃ settled,
       settled ++ units p ++ todo (pc p) ≡ₚ all_pairs before ∧
       Results (job p) ≡ₚ omap result_of settled ∧
       Errors (job p)
         ≡ₚ omap error_of settled ++ early_error (Visits req) (pc p)) ∧
    (pc p = Returned →
     Status (job p) = failed ∧ is_Some (CompletedAt (job p)) ∧
     filter (λ e, StoreError_Error e = unknown_store_message) (Errors (job p))
       = [unknown_store_error (Visit_StoreID visit)] ∧
     ∀ now, step (Main now) p = None).
Proof.
  intros Hreq Hk Hnone evs p Hrun.
  destruct (accounted_run _ _ _ _ _ Hrun) as [settled Hacc].
  pose proof Hacc as [Hpairs Hres Herr Hwg Hst Hunk Hjoin Hdone].
  assert (first_unknown (Visits req) = Some (Visit_StoreID visit)) as Hfirst.
  { apply first_unknown_Some. exists before, visit, after. done. }
  rewrite Hreq, dispatchable_prefix in Hpairs by done.
  split_and!.
  - apply run_weight in Hrun. lia.
  - intros Hc now. apply main_enabled; [done|].
    intros Hjoined. specialize (Hunk Hc).
    rewrite Hjoined, Hfirst in Hunk. done.
  - by apply (accounted_returns _ _ _ Hacc).
  - exists settled. done.
  - intros Hc. rewrite Hc in Herr. simpl in Herr. rewrite Hfirst in Herr.
    assert (Errors (job p) ≠ []) as Hne.
    { intros Hnil. rewrite Hnil in Herr. apply Permutation_nil_l in Herr.
      by destruct (omap error_of settled). }
    split_and!.
    + rewrite Hst. by destruct (Errors (job p)).
    + destruct (CompletedAt (job p)) eqn:Hd; [eauto|].
      by apply (acc_completedAt _ _ _ _ Hacc) in Hd.
    + apply Permutation_singleton_r. rewrite Herr, filter_app.
      rewrite filter_none; [done|].
      apply Forall_forall. intros e He.
      apply list_elem_of_omap in He as (u & _ & Hu).
      by apply error_of_message in Hu.
    + intros now. by apply returned_main_stuck.
Qed.

(** ** C8 *)

Lemma step_sets_failed ev p p' :
  step ev p = Some p' → Status (job p) ≠ failed → Status (job p') = failed →
  ∃ e, Errors (job p') = Errors (job p) ++ [e].
Proof.
  destruct p as [j c n us]. destruct ev as [now|i]; simpl.
  - unfold step_main; simpl.
    destruct c as [[|visit rest]|storeID [|url urls] rest|]; simpl; try done.
    + case_decide; [|done]. intros ? Hf; simplify_eq. simpl.
      by rewrite decide_True.
    + destruct (getStore (Visit_StoreID visit)); intros; simplify_eq;
        simpl in *; try done; eauto.
    + intros; by simplify_eq.
    + intros; by simplify_eq.
  - unfold step_unit; simpl. destruct (us !! i) as [[??]|]; [|done].
    intros; simplify_eq; simpl in *.
    destruct (calculateImagePerimeter _ _ _); simpl in *; try done; eauto.
Qed.

(** C8. In every state a job reaches, status "completed" comes with an empty
    error list and status "failed" with a non-empty one.  A step that turns
    the status into "failed" appends an error in that same step, "failed" is
    never left, and a step sets "completed" only from "ongoing", so only on
    a job that was never "failed". *)
Theorem status_agrees_with_errors jobID created req evs p :
  run evs (processJob (newJob jobID created) req) = Some p →
  (Status (job p) = completed → Errors (job p) = []) ∧
  (Status (job p) = failed → Errors (job p) ≠ []) ∧
  (∀ ev p', step ev p = Some p' →
     (Status (job p) = failed → Status (job p') = failed) ∧
     (Status (job p) ≠ failed → Status (job p') = failed →
      ∃ e, Errors (job p') = Errors (job p) ++ [e]) ∧
     (Status (job p) ≠ completed → Status (job p') = completed →
      Status (job p) = ongoing)) ∧
  (Status (job p) = completed →
   ∀ evs1 evs2 q,
     evs = evs1 ++ evs2 →
     run evs1 (processJob (newJob jobID created) req) = Some q →
     Status (job q) ≠ failed).
Proof.
  intros Hrun.
  destruct (accounted_run _ _ _ _ _ Hrun) as [settled Hacc].
  destruct (accounted_status _ _ _ Hacc) as (Hcomp & Hfail & Hongoing & Hcases).
  split_and!.
  - intros Hc. by apply Hcomp.
  - done.
  - intros ev p' Hstep. split_and!.
    + by apply (step_failed ev).
    + by apply (step_sets_failed ev).
    + intros Hnc Hc'. destruct Hcases as [Ho|[Hc|Hf]]; [done|done|].
      apply (step_failed _ _ _ Hstep) in Hf. rewrite Hf in Hc'. done.
  - intros Hc evs1 evs2 q -> Hq Hf.
    rewrite run_app, Hq in Hrun. simpl in Hrun.
    apply (run_failed _ _ _ Hrun) in Hf. rewrite Hf in Hc. done.
Qed.

(** ** C9 *)

(** C9. For every unit in flight, the store id it was dispatched with is in
    the store master: the lookup inside [calculateImagePerimeter] finds the
    store, and what the unit gets back is never the "store ID ... does not
    exist" error. *)
Theorem unit_store_lookup_succeeds jobID created req evs p i storeID imageURL :
  run evs (processJob (newJob jobID created) req) = Some p →
  units p !! i = Some (storeID, imageURL) →
  (∃ store, getStore storeID = Some store) ∧
  calculateImagePerimeter http_get storeID imageURL
    ≠ inr ("store ID " +:+ storeID +:+ " does not exist").
Proof.
  intros Hrun Hi.
  destruct (accounted_run _ _ _ _ _ Hrun) as [settled Hacc].
  assert (is_Some (getStore storeID)) as Hs.
  { apply (accounted_units_known _ _ _ (storeID, imageURL) Hacc).
    by apply list_elem_of_lookup_2 in Hi. }
  split; [done|].
  intros Herr. by apply (unit_error_message _ _ _ Herr).
Qed.

End JobTheory.

(** * Properties of the whole process *)

Section ServerTheory.

Variable http_get : string → HttpOutcome.
Variable Body : Type.
Variable Decode : bool → Body → option SubmitJobRequest.

Local Abbreviation step := (step http_get).
Local Abbreviation run := (run http_get).
Local Abbreviation act := (act http_get Body Decode).
Local Abbreviation serve := (serve http_get Body Decode).
Local Abbreviation handleSubmitJob := (handleSubmitJob Body Decode).

(** A submission leaves the allocated job objects where they are. *)
Lemma handleSubmitJob_heap method body now sv :
  heap sv `prefix_of` heap (handleSubmitJob method body now sv).2 ∧
  ∀ p, p ∈ heap (handleSubmitJob method body now sv).2 →
       p ∈ heap sv ∨ ∃ jobID req, p = processJob (newJob jobID now) req.
Proof.
  unfold handleSubmitJob.
  destruct (decide (method ≠ MethodPost)); simpl; [by auto|].
  destruct (Decode true body) as [req|]; simpl; [|by auto].
  destruct (decide (Count req = 0%Z ∧ 0 < length (Visits req)));
    simpl; [by auto|].
  destruct (decide (Count req ≠ Z.of_nat (length (Visits req))));
    simpl; [by auto|].
  split; [by apply prefix_app_r|].
  intros p Hp. apply elem_of_app in Hp as [Hp|Hp]; [by left|].
  apply list_elem_of_singleton in Hp. right. eauto.
Qed.

(** What one action does to the job object at a given address. *)
Lemma act_heap a sv sv' addr p :
  act a sv = Some sv' → heap sv !! addr = Some p →
  ∃ evs p', run evs p = Some p' ∧ heap sv' !! addr = Some p'.
Proof.
  intros Hact Hp. destruct a as [method body now|method jobIDStr|addr' ev];
    simpl in Hact.
  - simplify_eq. exists [], p. split; [done|].
    destruct (handleSubmitJob_heap method body now sv) as [[k Hk] _].
    rewrite Hk. by apply lookup_app_l_Some.
  - simplify_eq. by exists [], p.
  - destruct (heap sv !! addr') as [q|] eqn:Hq; simpl in Hact; [|done].
    destruct (step ev q) as [q'|] eqn:Hq'; simpl in Hact; [|done].
    simplify_eq. simpl.
    destruct (decide (addr' = addr)) as [->|Hne].
    + simplify_eq. exists [ev], q'. simpl. rewrite Hq'. split; [done|].
      apply list_lookup_insert_eq. by apply lookup_lt_Some in Hq.
    + exists [], p. split; [done|]. by rewrite list_lookup_insert_ne.
Qed.

Lemma serve_heap acts sv sv' addr p :
  serve acts sv = Some sv' → heap sv !! addr = Some p →
  ∃ evs p', run evs p = Some p' ∧ heap sv' !! addr = Some p'.
Proof.
  revert sv p. induction acts as [|a acts IH]; intros sv p; simpl.
  - intros; simplify_eq. by exists [], p.
  - destruct (act a sv) as [sv1|] eqn:Ha; [|done]. intros Hserve Hp.
    destruct (act_heap _ _ _ _ _ Ha Hp) as (evs1 & p1 & Hrun1 & Hp1).
    destruct (IH _ _ Hserve Hp1) as (evs2 & p2 & Hrun2 & Hp2).
    exists (evs1 ++ evs2), p2. split; [|done].
    by rewrite run_app, Hrun1.
Qed.

(** Every job object was created by a submission and has only been changed
    by its own goroutines. *)
Lemma act_started a sv sv' :
  act a sv = Some sv' →
  Forall (job_state http_get) (heap sv) → Forall (job_state http_get) (heap sv').
Proof.
  intros Hact Hall. destruct a as [method body now|method jobIDStr|addr ev];
    simpl in Hact.
  - simplify_eq. apply Forall_forall. intros p Hp.
    apply handleSubmitJob_heap in Hp as [Hp|(jobID & req & ->)].
    + by apply (proj1 (Forall_forall _ _) Hall).
    + by exists jobID, now, req, [].
  - by simplify_eq.
  - destruct (heap sv !! addr) as [q|] eqn:Hq; simpl in Hact; [|done].
    destruct (step ev q) as [q'|] eqn:Hq'; simpl in Hact; [|done].
    simplify_eq. simpl. apply Forall_insert; [done|].
    destruct (Forall_lookup_1 _ _ _ _ Hall Hq) as (jobID & now & req & evs & Hrun).
    exists jobID, now, req, (evs ++ [ev]). by rewrite (run_snoc _ _ _ _ _ Hrun).
Qed.

Lemma serve_started acts sv addr p :
  serve acts initial = Some sv → heap sv !! addr = Some p →
  job_state http_get p.
Proof.
  intros Hserve Hp.
  assert (Forall (job_state http_get) (heap sv)) as Hall.
  { assert (Forall (job_state http_get) (heap initial)) as H0 by constructor.
    revert Hserve H0. generalize initial. clear Hp.
    induction acts as [|a acts IH]; intros sv0; simpl.
    - intros; by simplify_eq.
    - destruct (act a sv0) as [sv1|] eqn:Ha; [|done].
      eauto using act_started. }
  by apply (Forall_lookup_1 _ _ _ _ Hall Hp).
Qed.

(** ** C3 *)

(** C3 (as the code has it).  Once the status of a job is "completed" or
    "failed", no later action of the process changes the status, and the
    results and errors only grow at the end.  Once [processJob] has returned
    and no unit is in flight the job does not change at all, which is always
    so when the status is "completed". *)
Theorem terminal_status_is_stable acts sv addr p acts' sv' :
  serve acts initial = Some sv →
  heap sv !! addr = Some p →
  terminal (Status (job p)) →
  serve acts' sv = Some sv' →
  ∃ p', heap sv' !! addr = Some p' ∧
        Status (job p') = Status (job p) ∧
        Results (job p) `prefix_of` Results (job p') ∧
        Errors (job p) `prefix_of` Errors (job p') ∧
        (pc p = Returned → units p = [] → p' = p) ∧
        (Status (job p) = completed → p' = p).
Proof.
  intros Hsv Hp Hterm Hserve.
  destruct (serve_heap _ _ _ _ _ Hserve Hp) as (evs & p' & Hrun & Hp').
  destruct (serve_started _ _ _ _ Hsv Hp) as (jobID & now & req & evs0 & Hrun0).
  destruct (accounted_run _ _ _ _ _ _ Hrun0) as [settled Hacc].
  destruct (accounted_status _ _ _ _ Hacc) as (Hcomp & _).
  assert (pc p = Returned → units p = [] → p' = p) as Hquiet.
  { intros Hc Hus. by destruct (run_quiescent _ _ _ _ Hc Hus Hrun). }
  exists p'. split_and!; try done.
  - destruct Hterm as [Hc|Hf].
    + destruct (Hcomp Hc) as (_ & ? & ?). by rewrite Hquiet.
    + rewrite Hf. by apply (run_failed _ _ _ _ Hrun).
  - by apply (run_prefix _ _ _ _ Hrun).
  - by apply (run_prefix _ _ _ _ Hrun).
  - intros Hc. destruct (Hcomp Hc) as (_ & ? & ?). by apply Hquiet.
Qed.

(** ** The status response between critical sections *)

(** When the handler reads a job that no goroutine is in the middle of
    writing, the status response is a 200 with the job's status and id, and
    it carries the "error" list exactly when the status is "failed";
    otherwise the body is the status and the job id alone. *)
Theorem handleJobStatus_errors_iff_failed acts sv jobIDStr jobID j :
  serve acts initial = Some sv →
  Atoi jobIDStr = Some jobID →
  getJob sv jobID = Some j →
  ∃ body,
    handleJobStatus MethodGet jobIDStr sv = JSONResponse StatusOK body ∧
    field "status" body = Some (JString (Status j)) ∧
    field "job_id" body = Some (JString (Itoa (ID j))) ∧
    (is_Some (field "error" body) ↔ Status j = failed) ∧
    (Status j = failed →
     field "error" body = Some (JArray (encode_StoreError <$> Errors j))) ∧
    (Status j ≠ failed →
     body = JObject [("status", JString (Status j));
                     ("job_id", JString (Itoa (ID j)))]).
Proof.
  intros Hsv Hid Hj.
  assert (Status j = failed → Errors j ≠ []) as Hne.
  { unfold getJob in Hj. destruct (jobs sv !! jobID) as [addr|]; [|done].
    simpl in Hj. destruct (heap sv !! addr) as [p|] eqn:Hp; [|done].
    simpl in Hj. simplify_eq.
    destruct (serve_started _ _ _ _ Hsv Hp) as (jid & now & req & evs & Hrun).
    destruct (accounted_run _ _ _ _ _ _ Hrun) as [settled Hacc].
    by apply (accounted_status _ _ _ _ Hacc). }
  unfold handleJobStatus.
  rewrite decide_False by (by intros []).
  rewrite decide_False by (intros ->; done).
  rewrite Hid, Hj. eexists. split; [done|].
  unfold encode_JobStatusResponse, field; simpl.
  destruct (decide (Status j = failed)) as [Hf|Hf].
  - destruct (Errors j) as [|e errs] eqn:He; [by destruct (Hne Hf)|].
    simpl. split_and!; try done; split; try done; by eexists.
  - simpl. split_and!; try done; split; try done; by intros [].
Qed.

(** ** C10 *)

(** C10. A submission with count 0 and no visits is accepted: the handler
    answers 201 and registers a new job with status "ongoing".  The only step
    that job can take is the join of [processJob], and after it the job is
    "completed" with no results and no errors, whatever else the process
    does. *)
Theorem empty_submission_completes body now sv req :
  Decode true body = Some req →
  Count req = 0%Z →
  Visits req = [] →
  let jobID := nextJobID sv in
  let addr := length (heap sv) in
  let start := processJob (newJob jobID now) req in
  ∃ sv',
    handleSubmitJob MethodPost body now sv
      = (JSONResponse StatusCreated
           (encode_JobResponse {| JobResponse_JobID := jobID |}), sv') ∧
    getJob sv' jobID = Some (newJob jobID now) ∧
    Status (newJob jobID now) = ongoing ∧
    heap sv' !! addr = Some start ∧
    (∀ i, step (Unit i) start = None) ∧
    (∀ t, ∃ p, step (Main t) start = Some p ∧ pc p = Returned) ∧
    ∀ acts sv'',
      serve acts sv' = Some sv'' →
      ∃ p, heap sv'' !! addr = Some p ∧
           (p = start ∨
            (pc p = Returned ∧ units p = [] ∧ Status (job p) = completed ∧
             Results (job p) = [] ∧ Errors (job p) = [] ∧
             is_Some (CompletedAt (job p)))).
Proof.
  intros Hdec Hcount Hvisits jobID addr start.
  eexists. split_and!.
  - unfold handleSubmitJob. rewrite decide_False by (by intros []).
    rewrite Hdec.
    rewrite decide_False by (rewrite Hvisits; simpl; lia).
    rewrite decide_False by (rewrite Hvisits, Hcount; simpl; by intros []).
    done.
  - unfold getJob; simpl. rewrite lookup_insert_eq. simpl.
    by rewrite lookup_app_r, Nat.sub_diag.
  - done.
  - simpl. by rewrite lookup_app_r, Nat.sub_diag.
  - intros i. subst start. unfold processJob. by rewrite Hvisits.
  - intros t. subst start. unfold processJob. rewrite Hvisits. by eexists.
  - intros acts sv'' Hserve.
    assert (heap {| jobs := <[jobID := length (heap sv)]> (jobs sv);
                    heap := heap sv ++ [start];
                    nextJobID := wrap (jobID + 1) |} !! addr = Some start)
      as Hstart by (simpl; by rewrite lookup_app_r, Nat.sub_diag).
    destruct (serve_heap _ _ _ _ _ Hserve Hstart) as (evs & p & Hrun & Hp).
    exists p. split; [done|].
    destruct evs as [|ev evs]; simpl in Hrun; [left; by simplify_eq|right].
    subst start. unfold processJob in Hrun. rewrite Hvisits in Hrun.
    destruct ev as [t|i]; simpl in Hrun; [|done].
    apply run_quiescent in Hrun as [_ ->]; [|done|done].
    simpl. split_and!; try done; by eexists.
Qed.

End ServerTheory.

(** ** C6 *)

Section Validation.

Variable Body : Type.
Variable Decode : bool → Body → option SubmitJobRequest.

(** What [DisallowUnknownFields] promises: a body with a field the request
    type does not have is not decoded. *)
Variable unknown_field : Body → Prop.
Hypothesis Decode_strict : ∀ body, unknown_field body → Decode true body = None.

(** C6. A body with an unrecognized field, or whose count differs from the
    number of visits, or with count 0 and some visit, is answered with a
    400 error and leaves the process as it was: no job is registered, no job
    object allocated, no goroutine started. *)
Theorem handleSubmitJob_rejects_invalid http_get method body now sv :
  (unknown_field body ∨
   ∃ req, Decode true body = Some req ∧
          (Count req ≠ Z.of_nat (length (Visits req)) ∨
           (Count req = 0%Z ∧ Visits req ≠ []))) →
  (∃ message,
     handleSubmitJob Body Decode method body now sv
       = (responseError message, sv)) ∧
  act http_get Body Decode (SubmitJob method body now) sv = Some sv.
Proof.
  intros Hbad.
  assert (∃ message, handleSubmitJob Body Decode method body now sv
                     = (responseError message, sv)) as [message Hm].
  { unfold handleSubmitJob.
    destruct (decide (method ≠ MethodPost)); [eauto|].
    destruct Hbad as [Hu|(req & Hreq & Hcount)].
    - rewrite (Decode_strict _ Hu). eauto.
    - rewrite Hreq.
      destruct (decide (Count req = 0%Z ∧ 0 < length (Visits req)));
        [eauto|].
      destruct (decide (Count req ≠ Z.of_nat (length (Visits req))));
        [eauto|].
      destruct Hcount as [Hc|[Hz Hv]]; [done|].
      destruct (Visits req); [done|]. simpl in *. lia. }
  split; [eauto|]. simpl. by rewrite Hm.
Qed.

End Validation.

(** ** C3: the statement of the specification fails *)

(** C3, counterexample.  One visit to a known store with two images, both
    fetches answered 404: after the first unit has failed the job is
    "failed" with one error, and the second unit then appends another. *)
Lemma errors_grow_after_failed :
  ¬ frozen_once_terminal web_down SubmitJobRequest (λ _ req, Some req).
Proof.
  intros Hfrozen.
  destruct (serve web_down SubmitJobRequest (λ _ req, Some req)
              until_first_unit initial) as [sv|] eqn:Hsv;
    [|by vm_compute in Hsv].
  destruct (serve web_down SubmitJobRequest (λ _ req, Some req)
              second_unit sv) as [sv'|] eqn:Hsv';
    [|vm_compute in Hsv; simplify_eq; by vm_compute in Hsv'].
  destruct (heap sv !! 0) as [p|] eqn:Hp;
    [|vm_compute in Hsv; simplify_eq; by vm_compute in Hp].
  destruct (heap sv' !! 0) as [p'|] eqn:Hp';
    [|vm_compute in Hsv; simplify_eq; vm_compute in Hsv'; simplify_eq;
      by vm_compute in Hp'].
  assert (terminal (Status (job p))) as Hterm.
  { vm_compute in Hsv; simplify_eq. vm_compute in Hp; simplify_eq. by right. }
  specialize (Hfrozen _ sv 0 p _ sv' p' Hsv Hp Hterm Hsv' Hp').
  vm_compute in Hsv; simplify_eq. vm_compute in Hsv'; simplify_eq.
  vm_compute in Hp; simplify_eq. vm_compute in Hp'. by simplify_eq.
Qed.

(** ** C4 *)

(** C4, the failing run.  A visit to a known store with one image, then a
    visit to an unknown store: [processJob] dispatches the unit, reaches the
    unknown store, marks the job "failed", sets [CompletedAt] and returns
    while the unit is still in flight with nothing recorded for its image;
    the unit records its result afterwards. *)
Theorem early_return_leaves_unit_in_flight :
  ∃ p p',
    run web_up [Main 1; Main 2; Main 3; Main 4]
      (processJob (newJob 1 0) request_then_unknown) = Some p ∧
    pc p = Returned ∧ Status (job p) = failed ∧
    CompletedAt (job p) = Some 4%Z ∧
    units p = [("S00339218", "urlA")] ∧ wg p = 1 ∧
    Results (job p) = [] ∧ Errors (job p) = [unknown_store_error "UNKNOWN"] ∧
    step web_up (Unit 0) p = Some p' ∧
    ImageURL <$> Results (job p') = ["urlA"] ∧
    CompletedAt (job p') = Some 4%Z.
Proof. eexists _, _. split_and!; by vm_compute. Qed.

(** * The theorems at the sample submissions *)

(** The two scenarios of the specification, run to the end. *)
Example scenario_one_image :
  run web_up [Main 1; Main 2; Main 3; Unit 0; Main 4]
    (processJob (newJob 1 0) request_one)
  = Some {| job := {| ID := 1; Status := "completed";
                      Results := [ {| StoreID := "S00339218";
                                      StoreName := "Store A";
                                      AreaCode := "NYC";
                                      ImageURL := "urlA";
                                      Width := 100; Height := 50;
                                      Perimeter := 300 |} ];
                      Errors := [];
                      CreatedAt := Some 0%Z; CompletedAt := Some 4%Z |};
            pc := Returned; wg := 0; units := [] |}.
Proof. reflexivity. Qed.

Example scenario_unknown_store :
  run web_up [Main 1] (processJob (newJob 1 0) request_unknown)
  = Some {| job := {| ID := 1; Status := "failed"; Results := [];
                      Errors := [ {| StoreError_StoreID := "UNKNOWN";
                                     StoreError_Error :=
                                       "Store ID does not exist" |} ];
                      CreatedAt := Some 0%Z; CompletedAt := Some 1%Z |};
            pc := Returned; wg := 0; units := [] |}.
Proof. reflexivity. Qed.

(** Two polls of a "failed" job, before and after its second unit fails. *)
Example polls_of_failed_job_differ :
  ∃ sv sv',
    serve web_down SubmitJobRequest (λ _ req, Some req) until_first_unit initial
      = Some sv ∧
    serve web_down SubmitJobRequest (λ _ req, Some req) second_unit sv
      = Some sv' ∧
    handleJobStatus MethodGet "1" sv ≠ handleJobStatus MethodGet "1" sv'.
Proof.
  eexists _, _. split_and!; [by vm_compute..|]. vm_compute. discriminate.
Qed.

Example float64_of_int_rounds :
  float64_of_int (2^53 + 1) = (2^53)%Z ∧ float64_of_int 150 = 150%Z.
Proof. split; reflexivity. Qed.

Lemma visit_A_known imageURLs : known (visit_A imageURLs).
Proof. by eexists. Qed.

Lemma web_up_fetches url :
  fetch_succeeds web_up url ∧ dimensions_in_range web_up url.
Proof.
  split; [by eexists _, _|].
  intros width height Hd. vm_compute in Hd. simplify_eq. by vm_compute.
Qed.

(** The 100×50 image of "urlA", submitted alone: one result, perimeter 300. *)
Lemma processJob_completes_when_all_succeed_witness :
  Forall known (Visits request_one) ∧
  Forall (λ url, fetch_succeeds web_up url ∧ dimensions_in_range web_up url)
         (submitted_urls request_one) ∧
  ∃ p, run web_up [Main 1; Main 2; Main 3; Unit 0; Main 4]
         (processJob (newJob 1 0) request_one) = Some p ∧
       Status (job p) = completed ∧ Errors (job p) = [] ∧
       ImageURL <$> Results (job p) ≡ₚ submitted_urls request_one ∧
       Forall (λ r, downloadAndGetDimensions web_up (ImageURL r)
                    = inl (Width r, Height r) ∧
                    Perimeter r = (2 * (Width r + Height r))%Z)
              (Results (job p)).
Proof.
  assert (Forall known (Visits request_one)) as Hk.
  { apply Forall_cons_2; [apply visit_A_known|apply Forall_nil_2]. }
  assert (Forall (λ url, fetch_succeeds web_up url ∧
                         dimensions_in_range web_up url)
                 (submitted_urls request_one)) as Hok.
  { apply Forall_cons_2; [apply web_up_fetches|apply Forall_nil_2]. }
  split; [exact Hk|]. split; [exact Hok|].
  destruct (run web_up [Main 1; Main 2; Main 3; Unit 0; Main 4]
              (processJob (newJob 1 0) request_one)) as [p|] eqn:Hrun;
    [|by vm_compute in Hrun].
  exists p. split; [reflexivity|].
  destruct (processJob_completes_when_all_succeed
              web_up 1 0 request_one Hk Hok _ _ Hrun) as (_ & _ & _ & Hfinal).
  assert (pc p = Returned) as Hc by (vm_compute in Hrun; by simplify_eq).
  destruct (Hfinal Hc) as (Hst & Herr & _ & _ & Hurls & Hall).
  repeat split; assumption.
Defined.

(** A visit to a known store, then one to "UNKNOWN". *)
Lemma processJob_short_circuits_on_unknown_store_witness :
  Visits request_then_unknown
    = [visit_A ["urlA"]] ++ visit_unknown ["urlB"] :: [] ∧
  Forall known [visit_A ["urlA"]] ∧
  getStore (Visit_StoreID (visit_unknown ["urlB"])) = None ∧
  ∃ p, run web_up [Main 1; Main 2; Main 3; Main 4]
         (processJob (newJob 1 0) request_then_unknown) = Some p ∧
       Status (job p) = failed ∧ is_Some (CompletedAt (job p)) ∧
       filter (λ e, StoreError_Error e = unknown_store_message) (Errors (job p))
         = [unknown_store_error "UNKNOWN"].
Proof.
  assert (Forall known [visit_A ["urlA"]]) as Hk.
  { apply Forall_cons_2; [apply visit_A_known|apply Forall_nil_2]. }
  split; [reflexivity|]. split; [exact Hk|]. split; [reflexivity|].
  destruct (run web_up [Main 1; Main 2; Main 3; Main 4]
              (processJob (newJob 1 0) request_then_unknown))
    as [p|] eqn:Hrun; [|by vm_compute in Hrun].
  exists p. split; [reflexivity|].
  destruct (processJob_short_circuits_on_unknown_store
              web_up 1 0 request_then_unknown
              [visit_A ["urlA"]] (visit_unknown ["urlB"]) []
              eq_refl Hk eq_refl _ _ Hrun) as (_ & _ & _ & _ & Hfinal).
  assert (pc p = Returned) as Hc by (vm_compute in Hrun; by simplify_eq).
  destruct (Hfinal Hc) as (Hst & Hdone & Herr & _).
  repeat split; assumption.
Defined.

(** Two images of one visit, "urlA" fetched and "urlB" answered 404. *)
Lemma processJob_fails_with_partial_results_witness :
  Forall known (Visits request_two) ∧
  Exists (fetch_fails web_partial) (submitted_urls request_two) ∧
  ∃ p, run web_partial [Main 1; Main 2; Main 3; Unit 1; Main 4; Unit 0; Main 5]
         (processJob (newJob 1 0) request_two) = Some p ∧
       Status (job p) = failed ∧
       ImageURL <$> Results (job p)
         ≡ₚ filter (fetch_succeeds web_partial) (submitted_urls request_two) ∧
       length (Errors (job p))
         = length (filter (fetch_fails web_partial) (submitted_urls request_two)).
Proof.
  assert (Forall known (Visits request_two)) as Hk.
  { apply Forall_cons_2; [apply visit_A_known|apply Forall_nil_2]. }
  assert (Exists (fetch_fails web_partial) (submitted_urls request_two)) as Hko.
  { apply Exists_cons_tl, Exists_cons_hd. by eexists. }
  split; [exact Hk|]. split; [exact Hko|].
  destruct (run web_partial
              [Main 1; Main 2; Main 3; Unit 1; Main 4; Unit 0; Main 5]
              (processJob (newJob 1 0) request_two)) as [p|] eqn:Hrun;
    [|by vm_compute in Hrun].
  exists p. split; [reflexivity|].
  destruct (processJob_fails_with_partial_results
              web_partial 1 0 request_two Hk Hko _ _ Hrun) as (_ & _ & _ & Hfinal).
  assert (pc p = Returned) as Hc by (vm_compute in Hrun; by simplify_eq).
  destruct (Hfinal Hc) as (Hst & _ & _ & _ & _ & Hurls & Hlen & _).
  repeat split; assumption.
Defined.

(** The job of [request_two] once its "urlB" unit has failed. *)
Lemma status_agrees_with_errors_witness :
  ∃ p, run web_partial [Main 1; Main 2; Main 3; Unit 1]
         (processJob (newJob 1 0) request_two) = Some p ∧
       (Status (job p) = completed → Errors (job p) = []) ∧
       (Status (job p) = failed → Errors (job p) ≠ []).
Proof.
  destruct (run web_partial [Main 1; Main 2; Main 3; Unit 1]
              (processJob (newJob 1 0) request_two)) as [p|] eqn:Hrun;
    [|by vm_compute in Hrun].
  exists p. split; [reflexivity|].
  destruct (status_agrees_with_errors web_partial 1 0 request_two _ _ Hrun)
    as (Hcomp & Hfail & _).
  split; assumption.
Defined.

(** The unit of "urlA" in flight. *)
Lemma unit_store_lookup_succeeds_witness :
  ∃ p, run web_up [Main 1; Main 2] (processJob (newJob 1 0) request_one)
         = Some p ∧
       units p !! 0 = Some ("S00339218", "urlA") ∧
       (∃ store, getStore "S00339218" = Some store) ∧
       calculateImagePerimeter web_up "S00339218" "urlA"
         ≠ inr ("store ID " +:+ "S00339218" +:+ " does not exist").
Proof.
  destruct (run web_up [Main 1; Main 2] (processJob (newJob 1 0) request_one))
    as [p|] eqn:Hrun; [|by vm_compute in Hrun].
  exists p. split; [reflexivity|].
  assert (units p !! 0 = Some ("S00339218", "urlA")) as Hi
    by (vm_compute in Hrun; by simplify_eq).
  split; [exact Hi|].
  exact (unit_store_lookup_succeeds web_up 1 0 request_one _ _ 0 _ _ Hrun Hi).
Defined.

(** The job of [request_two] with both fetches failing, after the first
    failure and across the second. *)
Lemma terminal_status_is_stable_witness :
  ∃ sv p sv',
    serve web_down SubmitJobRequest (λ _ req, Some req) until_first_unit initial
      = Some sv ∧
    heap sv !! 0 = Some p ∧
    terminal (Status (job p)) ∧
    serve web_down SubmitJobRequest (λ _ req, Some req) second_unit sv
      = Some sv' ∧
    ∃ p', heap sv' !! 0 = Some p' ∧
          Status (job p') = Status (job p) ∧
          Results (job p) `prefix_of` Results (job p') ∧
          Errors (job p) `prefix_of` Errors (job p').
Proof.
  destruct (serve web_down SubmitJobRequest (λ _ req, Some req)
              until_first_unit initial) as [sv|] eqn:Hsv;
    [|by vm_compute in Hsv].
  destruct (heap sv !! 0) as [p|] eqn:Hp;
    [|vm_compute in Hsv; simplify_eq; by vm_compute in Hp].
  destruct (serve web_down SubmitJobRequest (λ _ req, Some req)
              second_unit sv) as [sv'|] eqn:Hsv';
    [|vm_compute in Hsv; simplify_eq; by vm_compute in Hsv'].
  assert (terminal (Status (job p))) as Hterm.
  { vm_compute in Hsv; simplify_eq. vm_compute in Hp; simplify_eq. by right. }
  exists sv, p, sv'.
  split; [reflexivity|]. split; [exact Hp|]. split; [exact Hterm|].
  split; [exact Hsv'|].
  destruct (terminal_status_is_stable web_down SubmitJobRequest
              (λ _ req, Some req) _ _ _ _ _ _ Hsv Hp Hterm Hsv')
    as (p' & Hp' & Hst & Hres & Herr & _).
  exists p'. repeat split; assumption.
Defined.

(** A body with a field the request type does not have. *)
Lemma handleSubmitJob_rejects_invalid_witness :
  (∀ body, has_other_fields body → decode_payload true body = None) ∧
  has_other_fields {| payload_request := request_one;
                      payload_other_fields := ["priority"] |} ∧
  (∃ message,
     handleSubmitJob Payload decode_payload MethodPost
       {| payload_request := request_one; payload_other_fields := ["priority"] |}
       0 initial = (responseError message, initial)) ∧
  act web_up Payload decode_payload
    (SubmitJob MethodPost
       {| payload_request := request_one; payload_other_fields := ["priority"] |}
       0) initial = Some initial.
Proof.
  assert (∀ body, has_other_fields body → decode_payload true body = None)
    as Hstrict.
  { intros body Hother. unfold has_other_fields in Hother.
    unfold decode_payload. by destruct (payload_other_fields body). }
  assert (has_other_fields {| payload_request := request_one;
                              payload_other_fields := ["priority"] |})
    as Hother by done.
  split; [exact Hstrict|]. split; [exact Hother|].
  apply (handleSubmitJob_rejects_invalid Payload decode_payload
           has_other_fields Hstrict web_up MethodPost _ 0 initial).
  left. exact Hother.
Defined.

(** Polling job 1 of [request_two] after its first unit has failed. *)
Lemma handleJobStatus_errors_iff_failed_witness :
  ∃ sv j,
    serve web_down SubmitJobRequest (λ _ req, Some req) until_first_unit initial
      = Some sv ∧
    Atoi "1" = Some 1%Z ∧
    getJob sv 1 = Some j ∧
    ∃ body,
      handleJobStatus MethodGet "1" sv = JSONResponse StatusOK body ∧
      (is_Some (field "error" body) ↔ Status j = failed).
Proof.
  destruct (serve web_down SubmitJobRequest (λ _ req, Some req)
              until_first_unit initial) as [sv|] eqn:Hsv;
    [|by vm_compute in Hsv].
  destruct (getJob sv 1) as [j|] eqn:Hj;
    [|vm_compute in Hsv; simplify_eq; by vm_compute in Hj].
  exists sv, j.
  split; [reflexivity|]. split; [reflexivity|]. split; [exact Hj|].
  destruct (handleJobStatus_errors_iff_failed web_down SubmitJobRequest
              (λ _ req, Some req) _ _ "1" 1%Z j Hsv eq_refl Hj)
    as (body & Hresp & _ & _ & Hiff & _).
  exists body. split; assumption.
Defined.

(** The empty submission, sent to the process right after it started. *)
Lemma empty_submission_completes_witness :
  Count request_empty = 0%Z ∧ Visits request_empty = [] ∧
  ∃ sv',
    handleSubmitJob SubmitJobRequest (λ _ req, Some req) MethodPost
      request_empty 0 initial
      = (JSONResponse StatusCreated
           (encode_JobResponse {| JobResponse_JobID := 1 |}), sv') ∧
    getJob sv' 1 = Some (newJob 1 0) ∧
    ∀ acts sv'',
      serve web_up SubmitJobRequest (λ _ req, Some req) acts sv' = Some sv'' →
      ∃ p, heap sv'' !! 0 = Some p ∧
           (p = processJob (newJob 1 0) request_empty ∨
            (pc p = Returned ∧ units p = [] ∧ Status (job p) = completed ∧
             Results (job p) = [] ∧ Errors (job p) = [] ∧
             is_Some (CompletedAt (job p)))).
Proof.
  split; [reflexivity|]. split; [reflexivity|].
  destruct (empty_submission_completes web_up SubmitJobRequest
              (λ _ req, Some req) request_empty 0 initial request_empty
              eq_refl eq_refl eq_refl)
    as (sv' & Hresp & Hjob & _ & _ & _ & _ & Hlater).
  exists sv'. repeat split; assumption.
Defined.

(** * Further properties of one job's goroutines *)

Section JobMore.

Variable http_get : string → HttpOutcome.

Local Abbreviation step := (step http_get).
Local Abbreviation run := (run http_get).
Local Abbreviation accounted := (accounted http_get).
Local Abbreviation result_of := (result_of http_get).
Local Abbreviation error_of := (error_of http_get).

(** ** Every job settles *)

(** X1. Whatever is submitted, every schedule of the job is finite, some
    goroutine can take a step as long as [processJob] has not returned or a
    unit is in flight, and from every state the job reaches some schedule
    settles it: [processJob] returned, no unit in flight, the status
    terminal and [CompletedAt] set. *)
Theorem every_job_settles jobID created req evs p :
  run evs (processJob (newJob jobID created) req) = Some p →
  length evs ≤ weight (processJob (newJob jobID created) req) ∧
  (¬ quiescent p → ∃ ev p', step ev p = Some p') ∧
  (quiescent p → ∀ ev, step ev p = None) ∧
  ∃ evs' p', run evs' p = Some p' ∧ quiescent p' ∧
             terminal (Status (job p')) ∧ is_Some (CompletedAt (job p')).
Proof.
  intros Hrun.
  destruct (accounted_run _ _ _ _ _ _ Hrun) as [settled Hacc].
  split_and!.
  - apply run_weight in Hrun. lia.
  - intros Hnq.
    assert (pc p = Returned ∨ pc p ≠ Returned) as [Hc|Hc]
      by (destruct (pc p); auto).
    + destruct (decide (units p = [])) as [Hus|Hus]; [by destruct Hnq|].
      destruct (unit_enabled http_get p Hus) as [p' Hp']. eauto.
    + apply step_enabled; [apply Hacc|done].
  - intros [Hc Hus] ev. by apply quiescent_stuck.
  - destruct (accounted_returns _ _ _ _ Hacc) as (evs' & p' & Hrun' & Hc & Hus).
    exists evs', p'. split_and!; try done.
    + assert (run (evs ++ evs') (processJob (newJob jobID created) req)
              = Some p') as Hall by (by rewrite run_app, Hrun).
      destruct (accounted_run _ _ _ _ _ _ Hall) as [settled' Hacc'].
      destruct (accounted_status _ _ _ _ Hacc') as (_ & _ & Hongoing & Hcases).
      destruct Hcases as [Ho|Ht]; [|done].
      by destruct (Hongoing Ho).
    + assert (run (evs ++ evs') (processJob (newJob jobID created) req)
              = Some p') as Hall by (by rewrite run_app, Hrun).
      destruct (accounted_run _ _ _ _ _ _ Hall) as [settled' Hacc'].
      destruct (CompletedAt (job p')) eqn:Hd; [eauto|].
      by apply (acc_completedAt _ _ _ _ Hacc') in Hd.
Qed.

(** ** The outcome does not depend on the schedule *)

Lemma quiescent_outcome jobID created req evs p :
  run evs (processJob (newJob jobID created) req) = Some p →
  quiescent p →
  Results (job p) ≡ₚ omap result_of (dispatchable (Visits req)) ∧
  Errors (job p) ≡ₚ omap error_of (dispatchable (Visits req))
                    ++ early_error (Visits req) Returned ∧
  Status (job p) = status_for (Errors (job p)) Returned.
Proof.
  intros Hrun [Hc Hus].
  destruct (accounted_run _ _ _ _ _ _ Hrun) as [settled Hacc].
  destruct Hacc as [Hpairs Hres Herr _ Hst _ _ _].
  rewrite Hc, Hus in *. simpl in Hpairs. rewrite app_nil_r in Hpairs.
  split_and!; [by rewrite Hres, Hpairs|by rewrite Herr, Hpairs|done].
Qed.

Lemma step_observed_agrees ob p :
  fetches_agree http_get [ob] p →
  step_observed ob p = step (event_of ob) p.
Proof.
  destruct ob as [now|i outcome]; [done|]. simpl.
  unfold step_unit. destruct (units p !! i) as [[storeID imageURL]|]; [|done].
  intros [-> _].
  by unfold calculateImagePerimeter, downloadAndGetDimensions.
Qed.

Lemma run_observed_agrees obs p :
  fetches_agree http_get obs p →
  run_observed obs p = run (event_of <$> obs) p.
Proof.
  revert p. induction obs as [|ob obs IH]; intros p; [done|].
  intros [Hob Hrest].
  change (run_observed (ob :: obs) p)
    with (match step_observed ob p with
          | Some p' => run_observed obs p'
          | None => None
          end).
  change (run (event_of <$> ob :: obs) p)
    with (match step (event_of ob) p with
          | Some p' => run (event_of <$> obs) p'
          | None => None
          end).
  rewrite <- (step_observed_agrees ob p) by (split; [done|by destruct (step_observed ob p)]).
  destruct (step_observed ob p) as [p'|]; [|done]. by apply IH.
Qed.

(** X2. Take two schedules of the same submission that both settle the job,
    together with what every fetch returned.  If in both of them each fetch
    returned what [http_get] gives for its URL, that is, if the outcome of a
    fetch depended on the URL alone, the two leave the job with the same
    status, the same results and the same errors, up to the order in which
    the units recorded them. *)
Theorem outcome_is_schedule_independent jobID created req obs1 obs2 p1 p2 :
  run_observed obs1 (processJob (newJob jobID created) req) = Some p1 →
  run_observed obs2 (processJob (newJob jobID created) req) = Some p2 →
  fetches_agree http_get obs1 (processJob (newJob jobID created) req) →
  fetches_agree http_get obs2 (processJob (newJob jobID created) req) →
  quiescent p1 → quiescent p2 →
  Status (job p1) = Status (job p2) ∧
  Results (job p1) ≡ₚ Results (job p2) ∧
  Errors (job p1) ≡ₚ Errors (job p2).
Proof.
  intros Hrun1 Hrun2 Hagree1 Hagree2 Hq1 Hq2.
  rewrite (run_observed_agrees _ _ Hagree1) in Hrun1.
  rewrite (run_observed_agrees _ _ Hagree2) in Hrun2.
  destruct (quiescent_outcome _ _ _ _ _ Hrun1 Hq1) as (Hres1 & Herr1 & Hst1).
  destruct (quiescent_outcome _ _ _ _ _ Hrun2 Hq2) as (Hres2 & Herr2 & Hst2).
  assert (Errors (job p1) ≡ₚ Errors (job p2)) as Herr
    by (by rewrite Herr1, Herr2).
  split_and!; [|by rewrite Hres1, Hres2|done].
  rewrite Hst1, Hst2.
  destruct (Errors (job p1)) as [|e1 errs1], (Errors (job p2)) as [|e2 errs2];
    try done.
  - by apply Permutation_nil_l in Herr.
  - by apply Permutation_nil_r in Herr.
Qed.

(** ** The life cycle of a job *)

(** X3. In every state a job reaches: [CompletedAt] is unset exactly while
    [processJob] has not returned; the status is "ongoing" exactly while
    [processJob] has not returned and no error is recorded, "completed"
    exactly when it has returned with no error recorded, and "failed"
    exactly when an error is recorded. *)
Theorem job_life_cycle jobID created req evs p :
  run evs (processJob (newJob jobID created) req) = Some p →
  (CompletedAt (job p) = None ↔ pc p ≠ Returned) ∧
  (Status (job p) = ongoing ↔ pc p ≠ Returned ∧ Errors (job p) = []) ∧
  (Status (job p) = completed ↔ pc p = Returned ∧ Errors (job p) = []) ∧
  (Status (job p) = failed ↔ Errors (job p) ≠ []).
Proof.
  intros Hrun.
  destruct (accounted_run _ _ _ _ _ _ Hrun) as [settled Hacc].
  destruct Hacc as [_ _ _ _ Hst _ _ Hdone].
  split; [done|]. rewrite Hst. unfold status_for.
  destruct (Errors (job p)) as [|e errs]; destruct (pc p);
    split_and!; split; try done; try (by intros []); by intros [].
Qed.

(** ** The identity of a job *)

Lemma step_identity ev p p' :
  step ev p = Some p' →
  ID (job p') = ID (job p) ∧ CreatedAt (job p') = CreatedAt (job p).
Proof.
  destruct p as [j c n us]. destruct ev as [now|i]; simpl.
  - unfold step_main; simpl.
    destruct c as [[|visit rest]|storeID [|url urls] rest|]; simpl; try done.
    + case_decide; [|done]. intros; by simplify_eq.
    + destruct (getStore (Visit_StoreID visit)); intros; by simplify_eq.
    + intros; by simplify_eq.
    + intros; by simplify_eq.
  - unfold step_unit; simpl. destruct (us !! i) as [[??]|]; [|done].
    intros; simplify_eq; simpl. by destruct (calculateImagePerimeter _ _ _).
Qed.

(** X4. No step of [processJob] or of a unit changes the id or the creation
    time of the job: it keeps those [handleSubmitJob] created it with. *)
Theorem job_identity_is_kept jobID created req evs p :
  run evs (processJob (newJob jobID created) req) = Some p →
  ID (job p) = jobID ∧ CreatedAt (job p) = Some created.
Proof.
  apply (run_ind http_get
           (λ p, ID (job p) = jobID ∧ CreatedAt (job p) = Some created)).
  - done.
  - intros q ev q' [Hid Hcreated] Hstep.
    destruct (step_identity _ _ _ Hstep) as [-> ->]. done.
Qed.

(** ** The wait group *)

(** X5. The wait-group counter always equals the number of units in flight:
    a unit that settles finds it positive and lowers it by one, and at
    [wg.Wait()] the [processJob] thread can go on exactly when no unit is in
    flight. *)
Theorem waitgroup_counts_units jobID created req evs p :
  run evs (processJob (newJob jobID created) req) = Some p →
  wg p = length (units p) ∧
  (∀ i p', step (Unit i) p = Some p' → wg p = S (wg p')) ∧
  (pc p = AtVisits [] →
   ∀ now, is_Some (step (Main now) p) ↔ units p = []).
Proof.
  intros Hrun.
  destruct (accounted_run _ _ _ _ _ _ Hrun) as [settled Hacc].
  pose proof (acc_wg _ _ _ _ Hacc) as Hwg.
  split_and!; [done| |].
  - intros i p' Hstep. simpl in Hstep. unfold step_unit in Hstep.
    destruct (units p !! i) as [[storeID url]|] eqn:Hi; [|done].
    simplify_eq. simpl. apply lookup_lt_Some in Hi. lia.
  - intros Hc now. simpl. unfold step_main. rewrite Hc, Hwg.
    destruct (units p); simpl; split; try done; by intros [].
Qed.

(** ** What the job holds *)

Lemma getStore_id storeID store :
  getStore storeID = Some store → Store_StoreID store = storeID.
Proof.
  unfold getStore, storeMaster. rewrite lookup_insert.
  case_decide; [by intros; simplify_eq|].
  rewrite lookup_insert. case_decide; [by intros; simplify_eq|].
  by rewrite lookup_empty.
Qed.

Lemma dispatchable_submitted u visits :
  u ∈ dispatchable visits →
  ∃ visit, visit ∈ visits ∧ u.1 = Visit_StoreID visit ∧
           u.2 ∈ Visit_ImageURLs visit.
Proof.
  induction visits as [|v rest IH]; simpl; [by intros ?%elem_of_nil|].
  destruct (getStore (Visit_StoreID v)); [|by intros ?%elem_of_nil].
  rewrite elem_of_app. intros [Hu|Hu].
  - unfold pairs_of in Hu. apply list_elem_of_fmap in Hu as (url & -> & Hurl).
    exists v. split_and!; [by left|done|done].
  - destruct (IH Hu) as (visit & Hv & ? & ?).
    exists visit. split_and!; [by right|done|done].
Qed.

Lemma result_of_Some u r :
  result_of u = Some r →
  ∃ store, getStore u.1 = Some store ∧
           StoreID r = Store_StoreID store ∧
           StoreName r = Store_StoreName store ∧
           AreaCode r = Store_AreaCode store ∧
           ImageURL r = u.2 ∧
           downloadAndGetDimensions http_get u.2 = inl (Width r, Height r) ∧
           Perimeter r = (2 * float64_of_int (wrap (Width r + Height r)))%Z.
Proof.
  unfold result_of, calculateImagePerimeter.
  destruct (getStore u.1) as [store|]; [|done].
  destruct (downloadAndGetDimensions http_get u.2) as [[w h]|err]; [|done].
  intros; simplify_eq. by exists store.
Qed.

Lemma error_of_Some u e :
  is_Some (getStore u.1) → error_of u = Some e →
  StoreError_StoreID e = u.1 ∧
  downloadAndGetDimensions http_get u.2 = inr (StoreError_Error e).
Proof.
  intros [store Hs]. unfold error_of, calculateImagePerimeter. rewrite Hs.
  destruct (downloadAndGetDimensions http_get u.2) as [[w h]|err]; [done|].
  intros; by simplify_eq.
Qed.

Lemma settled_dispatchable visits p settled u :
  accounted visits p settled → u ∈ settled → u ∈ dispatchable visits.
Proof.
  intros Hacc Hu. rewrite <- (acc_pairs _ _ _ _ Hacc).
  rewrite elem_of_app. by left.
Qed.

(** X6. Every result a job holds, at any time, belongs to an image of a
    submitted visit: it carries that visit's store id with the name and area
    code the store master has for it, the image URL, the width and height
    the fetch of that URL gave, and as perimeter the double
    2.0 * float64(width + height). *)
Theorem recorded_results_are_sound jobID created req evs p r :
  run evs (processJob (newJob jobID created) req) = Some p →
  r ∈ Results (job p) →
  ∃ visit,
    visit ∈ Visits req ∧ StoreID r = Visit_StoreID visit ∧
    ImageURL r ∈ Visit_ImageURLs visit ∧
    getStore (StoreID r)
      = Some {| Store_StoreID := StoreID r; Store_StoreName := StoreName r;
                Store_AreaCode := AreaCode r |} ∧
    downloadAndGetDimensions http_get (ImageURL r)
      = inl (Width r, Height r) ∧
    Perimeter r = (2 * float64_of_int (wrap (Width r + Height r)))%Z.
Proof.
  intros Hrun Hr.
  destruct (accounted_run _ _ _ _ _ _ Hrun) as [settled Hacc].
  rewrite (acc_results _ _ _ _ Hacc) in Hr.
  apply list_elem_of_omap in Hr as (u & Hu & Hres).
  apply (settled_dispatchable _ _ _ _ Hacc) in Hu.
  destruct (dispatchable_submitted _ _ Hu) as (visit & Hv & Hsid & Hurl).
  destruct (result_of_Some _ _ Hres)
    as (store & Hs & Hid & Hname & Harea & Himg & Hdim & Hper).
  pose proof (getStore_id _ _ Hs) as Hkey.
  exists visit. rewrite Himg. split_and!; try done.
  - by rewrite Hid, Hkey.
  - rewrite Hid, Hname, Harea. rewrite Hkey at 1. rewrite Hs.
    by destruct store.
Qed.

(** X7. Every error a job holds, at any time, names the store id of a
    submitted visit, and is either the unknown-store error of a visit whose
    store id is not in the store master, recorded by [processJob] as it
    returned, or carries the message of the failed fetch of one of the
    images of a visit whose store id is known. *)
Theorem recorded_errors_are_sound jobID created req evs p e :
  run evs (processJob (newJob jobID created) req) = Some p →
  e ∈ Errors (job p) →
  ∃ visit,
    visit ∈ Visits req ∧ StoreError_StoreID e = Visit_StoreID visit ∧
    ((getStore (Visit_StoreID visit) = None ∧
      StoreError_Error e = unknown_store_message ∧ pc p = Returned) ∨
     (is_Some (getStore (Visit_StoreID visit)) ∧
      StoreError_Error e ≠ unknown_store_message ∧
      ∃ url, url ∈ Visit_ImageURLs visit ∧
             downloadAndGetDimensions http_get url
               = inr (StoreError_Error e))).
Proof.
  intros Hrun He.
  destruct (accounted_run _ _ _ _ _ _ Hrun) as [settled Hacc].
  rewrite (acc_errors _ _ _ _ Hacc) in He.
  apply elem_of_app in He as [He|He].
  - apply list_elem_of_omap in He as (u & Hu & Herr).
    apply (settled_dispatchable _ _ _ _ Hacc) in Hu.
    destruct (dispatchable_submitted _ _ Hu) as (visit & Hv & Hsid & Hurl).
    pose proof (dispatchable_known _ _ Hu) as Hknown.
    destruct (error_of_Some _ _ Hknown Herr) as [Hid Hmsg].
    exists visit. split_and!; [done|by rewrite Hid|].
    right. rewrite <- Hsid. split_and!; [done| |by exists u.2].
    by apply (error_of_message http_get u).
  - unfold early_error in He. destruct (pc p) eqn:Hc; try by apply elem_of_nil in He.
    destruct (first_unknown (Visits req)) as [storeID|] eqn:Hfirst;
      [|by apply elem_of_nil in He].
    apply list_elem_of_singleton in He as ->.
    apply first_unknown_Some in Hfirst as (before & visit & after & Hreq & _ & Hnone & ->).
    exists visit. split_and!; [|done|by left].
    rewrite Hreq. apply elem_of_app. right. by left.
Qed.

Lemma outcome_lengths (l : list (string * string)) :
  length (omap result_of l) + length (omap error_of l) = length l.
Proof.
  induction l as [|u l IH]; [done|]. simpl.
  unfold result_of at 1, error_of at 1.
  destruct (calculateImagePerimeter http_get u.1 u.2); simpl;
    unfold omap in IH; lia.
Qed.

Lemma one_outcome (u : string * string) :
  (is_Some (result_of u) ∧ error_of u = None) ∨
  (result_of u = None ∧ is_Some (error_of u)).
Proof.
  unfold result_of, error_of.
  destruct (calculateImagePerimeter http_get u.1 u.2); [left|right];
    split; try done; by eexists.
Qed.

(** X8. At any time the images [processJob] dispatches a unit for, as
    (store id, URL) pairs counted with their multiplicity, split into those
    whose unit has finished, those in flight and those still to dispatch.
    Every finished unit has left exactly one entry, a result or an error,
    and these entries are all the results and all the errors of the job,
    apart from the one unknown-store error of the early return.  So the
    entries, the units in flight and the images to dispatch add up to the
    dispatched images. *)
Theorem images_are_accounted_once jobID created req evs p :
  run evs (processJob (newJob jobID created) req) = Some p →
  ∃ settled,
    settled ++ units p ++ todo (pc p) ≡ₚ dispatchable (Visits req) ∧
    Forall (λ u, (is_Some (result_of u) ∧ error_of u = None) ∨
                 (result_of u = None ∧ is_Some (error_of u))) settled ∧
    Results (job p) ≡ₚ omap result_of settled ∧
    Errors (job p)
      ≡ₚ omap error_of settled ++ early_error (Visits req) (pc p) ∧
    length (Results (job p)) + length (omap error_of settled)
      = length settled ∧
    length (Results (job p)) + length (Errors (job p))
      + length (units p) + length (todo (pc p))
    = length (dispatchable (Visits req))
      + length (early_error (Visits req) (pc p)).
Proof.
  intros Hrun.
  destruct (accounted_run _ _ _ _ _ _ Hrun) as [settled Hacc].
  destruct Hacc as [Hpairs Hres Herr _ _ _ _ _].
  exists settled. split_and!; try done.
  - apply Forall_forall. intros u _. apply one_outcome.
  - rewrite Hres. apply outcome_lengths.
  - rewrite Hres, Herr, <- Hpairs, !length_app.
    pose proof (outcome_lengths settled). lia.
Qed.

(** ** The perimeter of a decoded image *)

(** X9. For a known store and an image answered 200 whose decoded bounds
    have 32-bit coordinates with the minimum corner not beyond the maximum
    one, [calculateImagePerimeter] returns the store's data with the width
    and height of the bounds, both non-negative, and exactly
    2 × (width + height) as perimeter: nothing wraps and nothing is
    rounded. *)
Theorem perimeter_of_decoded_image storeID store url b :
  getStore storeID = Some store →
  http_get url = Responded StatusOK (Decoded b) →
  image_bounds b →
  calculateImagePerimeter http_get storeID url
    = inl {| StoreID := storeID;
             StoreName := Store_StoreName store;
             AreaCode := Store_AreaCode store;
             ImageURL := url;
             Width := MaxX b - MinX b;
             Height := MaxY b - MinY b;
             Perimeter := 2 * ((MaxX b - MinX b) + (MaxY b - MinY b)) |} ∧
  (0 ≤ MaxX b - MinX b < 2^32)%Z ∧ (0 ≤ MaxY b - MinY b < 2^32)%Z.
Proof.
  intros Hs Hget (Hx0 & Hx1 & Hx2 & Hy0 & Hy1 & Hy2).
  split; [|lia].
  unfold calculateImagePerimeter, downloadAndGetDimensions.
  rewrite Hs, Hget. rewrite decide_False by (by intros []).
  rewrite (getStore_id _ _ Hs).
  rewrite !wrap_small by lia.
  rewrite float64_of_int_exact by lia. done.
Qed.

End JobMore.

(** * Further properties of the registry and the handlers *)

(** ** Job ids as decimal strings *)

Lemma digit_pretty_N_char d :
  (d < 10)%N → digit (pretty_N_char d) = Some (Z.of_N d).
Proof.
  intros Hd.
  assert (d = 0 ∨ d = 1 ∨ d = 2 ∨ d = 3 ∨ d = 4 ∨ d = 5 ∨ d = 6 ∨ d = 7
          ∨ d = 8 ∨ d = 9)%N as Hcases by lia.
  repeat (destruct Hcases as [->|Hcases]; [reflexivity|]).
  by subst.
Qed.

Lemma digits_pretty_N_go x :
  ∃ k, (0 ≤ k)%Z ∧
       ∀ s acc, digits (pretty_N_go x s) acc
                = digits s (acc * 10^k + Z.of_N x)%Z.
Proof.
  induction (N.lt_wf_0 x) as [x _ IH].
  destruct (decide (x = 0)%N) as [->|Hx].
  - exists 0%Z. split; [done|]. intros s acc. rewrite pretty_N_go_0.
    f_equal. lia.
  - destruct (IH (x `div` 10)%N) as (k & Hk & Hgo); [apply N.div_lt; lia|].
    exists (k + 1)%Z. split; [lia|]. intros s acc.
    rewrite pretty_N_go_step by lia. rewrite Hgo. simpl.
    rewrite digit_pretty_N_char by (apply N.mod_lt; lia).
    f_equal. rewrite Z.pow_add_r by lia.
    pose proof (N.div_mod x 10 ltac:(lia)) as Hdm.
    rewrite Z.pow_1_r. generalize (10 ^ k)%Z. intros P.
    generalize dependent (x `div` 10)%N. generalize (x `mod` 10)%N.
    intros r q _ Hdm. nia.
Qed.

Lemma pretty_N_go_head x s :
  (0 < x)%N →
  ∃ d t, (d < 10)%N ∧ pretty_N_go x s = String (pretty_N_char d) t.
Proof.
  revert s. induction (N.lt_wf_0 x) as [x _ IH]. intros s Hx.
  rewrite pretty_N_go_step by done.
  destruct (decide (x `div` 10 = 0)%N) as [->|Hdiv].
  - rewrite pretty_N_go_0. exists (x `mod` 10)%N, s.
    split; [apply N.mod_lt; lia|done].
  - apply IH; [apply N.div_lt; lia|by apply N.neq_0_lt_0].
Qed.

Lemma Atoi_unsigned d t :
  (d < 10)%N →
  Atoi (String (pretty_N_char d) t)
  = n ← digits (String (pretty_N_char d) t) 0;
    if decide (- 2^63 ≤ n < 2^63)%Z then Some n else None.
Proof.
  intros Hd.
  assert (d = 0 ∨ d = 1 ∨ d = 2 ∨ d = 3 ∨ d = 4 ∨ d = 5 ∨ d = 6 ∨ d = 7
          ∨ d = 8 ∨ d = 9)%N as Hcases by lia.
  unfold Atoi.
  repeat (destruct Hcases as [->|Hcases];
          [simpl; by destruct (digits t _)|]).
  subst. simpl. by destruct (digits t _).
Qed.

Lemma Atoi_pretty_N_go x :
  (0 < x)%N →
  (Z.of_N x < 2^63 → Atoi (pretty_N_go x "") = Some (Z.of_N x))%Z ∧
  (Z.of_N x ≤ 2^63 → Atoi ("-" +:+ pretty_N_go x "") = Some (- Z.of_N x))%Z.
Proof.
  intros Hx.
  destruct (pretty_N_go_head x "" Hx) as (d & t & Hd & Hhead).
  destruct (digits_pretty_N_go x) as (k & _ & Hgo).
  specialize (Hgo "" 0%Z). simpl in Hgo.
  split.
  - intros Hrange.
    rewrite Hhead, Atoi_unsigned by done. rewrite <- Hhead. rewrite Hgo.
    simpl. rewrite decide_True by lia. f_equal; lia.
  - intros Hrange.
    change ("-" +:+ pretty_N_go x "") with (String "-"%char (pretty_N_go x "")).
    unfold Atoi. rewrite Hhead. cbv beta iota. rewrite <- Hhead.
    rewrite Hgo. rewrite decide_True by lia. f_equal; lia.
Qed.

Lemma Atoi_Itoa n : (- 2^63 ≤ n < 2^63)%Z → Atoi (Itoa n) = Some n.
Proof.
  intros Hn. unfold Itoa, pretty, pretty_Z.
  destruct n as [|x|x]; [done| |].
  - unfold pretty, pretty_positive, pretty, pretty_N.
    rewrite decide_False by done.
    apply (Atoi_pretty_N_go (N.pos x)); lia.
  - unfold pretty, pretty_positive, pretty, pretty_N.
    rewrite decide_False by done.
    apply (Atoi_pretty_N_go (N.pos x)); lia.
Qed.

Lemma wrap_range n : (- 2^63 ≤ wrap n < 2^63)%Z.
Proof.
  unfold wrap. pose proof (Z.mod_pos_bound (n + 2^63) (2^64)). lia.
Qed.

Lemma wrap_add_l a b : wrap (wrap a + b) = wrap (a + b).
Proof.
  unfold wrap. f_equal.
  replace ((a + 2^63) `mod` 2^64 - 2^63 + b + 2^63)%Z
    with ((a + 2^63) `mod` 2^64 + b)%Z by lia.
  rewrite Z.add_mod_idemp_l by done. f_equal. lia.
Qed.

Section ServerMore.

Variable http_get : string → HttpOutcome.
Variable Body : Type.
Variable Decode : bool → Body → option SubmitJobRequest.

Local Abbreviation step := (step http_get).
Local Abbreviation run := (run http_get).
Local Abbreviation act := (act http_get Body Decode).
Local Abbreviation serve := (serve http_get Body Decode).
Local Abbreviation handleSubmitJob := (handleSubmitJob Body Decode).
Local Abbreviation accepted := (accepted Decode).

(** ** What a submission does *)

Lemma handleSubmitJob_accepted method body now sv req :
  accepted method body req →
  handleSubmitJob method body now sv
  = (JSONResponse StatusCreated
       (encode_JobResponse {| JobResponse_JobID := nextJobID sv |}),
     {| jobs := <[nextJobID sv := length (heap sv)]> (jobs sv);
        heap := heap sv ++ [processJob (newJob (nextJobID sv) now) req];
        nextJobID := wrap (nextJobID sv + 1) |}).
Proof.
  intros (-> & Hdec & Hcount). unfold handleSubmitJob.
  rewrite decide_False by (by intros []). rewrite Hdec.
  rewrite decide_False by lia. by rewrite decide_False by (by intros []).
Qed.

Lemma handleSubmitJob_rejected method body now sv :
  (∀ req, ¬ accepted method body req) →
  ∃ message,
    handleSubmitJob method body now sv = (responseError message, sv).
Proof.
  intros Hno. unfold handleSubmitJob.
  destruct (decide (method ≠ MethodPost)) as [|Hm]; [eauto|].
  destruct (Decode true body) as [req|] eqn:Hdec; [|eauto].
  destruct (decide (Count req = 0%Z ∧ 0 < length (Visits req))); [eauto|].
  destruct (decide (Count req ≠ Z.of_nat (length (Visits req))))
    as [|Hcount]; [eauto|].
  destruct (Hno req). split_and!; [|done|].
  - by destruct (decide (method = MethodPost)).
  - by destruct (decide (Count req = Z.of_nat (length (Visits req)))).
Qed.

(** X10. A submission is answered 201 exactly when its method is POST, its
    body decodes and its count equals the number of visits.  Then it gets
    the next job id, and a new job object with that id is allocated and
    registered; otherwise it is answered 400 and the process stays as it
    was. *)
Theorem handleSubmitJob_accepts_exactly method body now sv :
  (∀ req, accepted method body req →
     handleSubmitJob method body now sv
     = (JSONResponse StatusCreated
          (encode_JobResponse {| JobResponse_JobID := nextJobID sv |}),
        {| jobs := <[nextJobID sv := length (heap sv)]> (jobs sv);
           heap := heap sv ++ [processJob (newJob (nextJobID sv) now) req];
           nextJobID := wrap (nextJobID sv + 1) |})) ∧
  ((∀ req, ¬ accepted method body req) →
   ∃ message,
     handleSubmitJob method body now sv = (responseError message, sv)) ∧
  ((∃ code response,
      (handleSubmitJob method body now sv).1 = JSONResponse code response ∧
      code = StatusCreated) ↔
   ∃ req, accepted method body req).
Proof.
  split_and!.
  - intros req. apply handleSubmitJob_accepted.
  - apply handleSubmitJob_rejected.
  - split.
    + intros (code & response & Hresp & ->).
      destruct (Decode true body) as [req|] eqn:Hdec.
      * destruct (decide (method = MethodPost ∧
                          Count req = Z.of_nat (length (Visits req))))
          as [[Hm Hc]|Hno]; [by exists req|].
        destruct (handleSubmitJob_rejected method body now sv) as [msg Hmsg].
        { intros req' (Hm & Hd & Hc). rewrite Hdec in Hd. simplify_eq.
          by destruct Hno. }
        rewrite Hmsg in Hresp. by simplify_eq.
      * destruct (handleSubmitJob_rejected method body now sv) as [msg Hmsg].
        { intros req' (_ & Hd & _). by rewrite Hdec in Hd. }
        rewrite Hmsg in Hresp. by simplify_eq.
    + intros [req Hacc]. rewrite (handleSubmitJob_accepted _ _ _ _ _ Hacc).
      by eexists _, _.
Qed.

(** ** The registry invariant *)

Lemma registry_ok_initial : registry_ok initial.
Proof.
  split_and!; [|done|].
  - intros id a Hid. simpl in Hid. by rewrite lookup_empty in Hid.
  - intros _ id a. simpl. rewrite lookup_empty. split; [done|]. lia.
Qed.

Lemma registry_ok_submit sv now req :
  registry_ok sv →
  registry_ok
    {| jobs := <[nextJobID sv := length (heap sv)]> (jobs sv);
       heap := heap sv ++ [processJob (newJob (nextJobID sv) now) req];
       nextJobID := wrap (nextJobID sv + 1) |}.
Proof.
  intros (Hreg & Hnext & Hseq). split_and!; simpl.
  - intros id a. rewrite lookup_insert. case_decide as Hid.
    + intros; simplify_eq.
      exists (processJob (newJob (nextJobID sv) now) req). split; [|done].
      by rewrite lookup_app_r, Nat.sub_diag.
    + intros Hjob. destruct (Hreg _ _ Hjob) as (p & Hp & Hpid).
      exists p. split; [|done]. by apply lookup_app_l_Some.
  - rewrite Hnext, wrap_add_l, length_app. simpl. f_equal. lia.
  - rewrite length_app. simpl. intros Hbound id a.
    assert (nextJobID sv = Z.of_nat (length (heap sv)) + 1)%Z as Hid.
    { rewrite Hnext, wrap_small; lia. }
    specialize (Hseq ltac:(lia) id a).
    rewrite lookup_insert. case_decide as Hcase.
    + subst id. split.
      * intros; simplify_eq. split; lia.
      * intros [Ha Heq]. f_equal. lia.
    + rewrite Hseq. split; [lia|]. intros [Ha Heq]. split; [|done].
      assert (a ≠ length (heap sv)) by (intros ->; lia). lia.
Qed.

Lemma registry_ok_act a sv sv' :
  act a sv = Some sv' → registry_ok sv → registry_ok sv'.
Proof.
  intros Hact Hok. destruct a as [method body now|method jobIDStr|addr ev];
    simpl in Hact.
  - simplify_eq.
    destruct (Decode true body) as [req|] eqn:Hdec.
    + destruct (decide (method = MethodPost ∧
                        Count req = Z.of_nat (length (Visits req))))
        as [[Hm Hc]|Hno].
      * rewrite (handleSubmitJob_accepted method body now sv req) by done.
        by apply registry_ok_submit.
      * destruct (handleSubmitJob_rejected method body now sv) as [msg ->];
          [|done].
        intros req' (Hm & Hd & Hc). rewrite Hdec in Hd. simplify_eq.
        by destruct Hno.
    + destruct (handleSubmitJob_rejected method body now sv) as [msg ->];
        [|done].
      intros req' (_ & Hd & _). by rewrite Hdec in Hd.
  - by simplify_eq.
  - destruct (heap sv !! addr) as [q|] eqn:Hq; simpl in Hact; [|done].
    destruct (step ev q) as [q'|] eqn:Hq'; simpl in Hact; [|done].
    simplify_eq. destruct Hok as (Hreg & Hnext & Hseq).
    split_and!; simpl; rewrite ?length_insert; try done.
    intros id a Hjob. destruct (Hreg _ _ Hjob) as (p & Hp & Hpid).
    destruct (decide (addr = a)) as [->|Hne].
    + simplify_eq. exists q'. split.
      * apply list_lookup_insert_eq. by apply lookup_lt_Some in Hq.
      * by destruct (step_identity http_get _ _ _ Hq') as [-> _].
    + exists p. split; [|done]. by rewrite list_lookup_insert_ne.
Qed.

Lemma registry_ok_serve acts sv sv' :
  serve acts sv = Some sv' → registry_ok sv → registry_ok sv'.
Proof.
  revert sv. induction acts as [|a acts IH]; intros sv; simpl.
  - intros; by simplify_eq.
  - destruct (act a sv) as [sv1|] eqn:Ha; [|done].
    eauto using registry_ok_act.
Qed.

(** X11. In every state of the process, a registered id leads to a job
    object that carries this id, no registered id dangles, and the next id
    is an [int]. *)
Theorem registry_is_consistent acts sv :
  serve acts initial = Some sv →
  (∀ id j, getJob sv id = Some j → ID j = id) ∧
  (∀ id, is_Some (jobs sv !! id) → is_Some (getJob sv id)) ∧
  (- 2^63 ≤ nextJobID sv < 2^63)%Z.
Proof.
  intros Hsv.
  destruct (registry_ok_serve _ _ _ Hsv registry_ok_initial)
    as (Hreg & Hnext & _).
  split; [|split].
  - intros id j. unfold getJob.
    destruct (jobs sv !! id) as [a|] eqn:Hid; [|done]. simpl.
    destruct (Hreg _ _ Hid) as (p & -> & Hpid). simpl.
    intros; by simplify_eq.
  - intros id [a Hid]. unfold getJob. rewrite Hid. simpl.
    destruct (Hreg _ _ Hid) as (p & -> & _). by eexists.
  - rewrite Hnext. apply wrap_range.
Qed.

(** X12. As long as fewer than 2^63 - 1 submissions have been accepted, job
    ids are given out in sequence: the next id is the number of accepted
    submissions plus one, and the registered ids are exactly 1 up to that
    number.  Rejected submissions use up no id. *)
Theorem job_ids_are_sequential acts sv :
  serve acts initial = Some sv →
  (Z.of_nat (length (heap sv)) < 2^63 - 1)%Z →
  nextJobID sv = (Z.of_nat (length (heap sv)) + 1)%Z ∧
  ∀ id, is_Some (getJob sv id) ↔ (1 ≤ id ≤ Z.of_nat (length (heap sv)))%Z.
Proof.
  intros Hsv Hbound.
  destruct (registry_ok_serve _ _ _ Hsv registry_ok_initial)
    as (Hreg & Hnext & Hseq).
  specialize (Hseq Hbound).
  split; [rewrite Hnext, wrap_small; lia|].
  intros id. split.
  - intros [j Hj]. unfold getJob in Hj.
    destruct (jobs sv !! id) as [a|] eqn:Hid; [|done].
    apply Hseq in Hid. lia.
  - intros Hid.
    assert (jobs sv !! id = Some (Z.to_nat (id - 1))) as Hjob.
    { apply Hseq. split; lia. }
    unfold getJob. rewrite Hjob. simpl.
    destruct (Hreg _ _ Hjob) as (p & -> & _). by eexists.
Qed.

(** ** Submitting and polling *)

(** X13. An accepted submission registers its new job, "ongoing" and empty,
    under the id it answers with, and leaves every other id of the registry
    and every job object allocated before as they were. *)
Theorem submit_registers_without_disturbing acts sv method body now req :
  serve acts initial = Some sv →
  accepted method body req →
  ∃ sv',
    handleSubmitJob method body now sv
      = (JSONResponse StatusCreated
           (encode_JobResponse {| JobResponse_JobID := nextJobID sv |}), sv') ∧
    getJob sv' (nextJobID sv) = Some (newJob (nextJobID sv) now) ∧
    (∀ id, id ≠ nextJobID sv → getJob sv' id = getJob sv id) ∧
    (∀ addr p, heap sv !! addr = Some p → heap sv' !! addr = Some p).
Proof.
  intros Hsv Hacc.
  destruct (registry_ok_serve _ _ _ Hsv registry_ok_initial) as (Hreg & _ & _).
  eexists. split; [by apply handleSubmitJob_accepted|].
  split_and!.
  - unfold getJob; simpl. rewrite lookup_insert_eq. simpl.
    by rewrite lookup_app_r, Nat.sub_diag.
  - intros id Hid. unfold getJob; simpl.
    rewrite lookup_insert_ne by done.
    destruct (jobs sv !! id) as [a|] eqn:Hjob; [|done]. simpl.
    destruct (Hreg _ _ Hjob) as (p & Hp & _).
    by rewrite (lookup_app_l_Some _ _ _ _ Hp), Hp.
  - intros addr p Hp. simpl. by apply lookup_app_l_Some.
Qed.

(** X14. A status request for the id an accepted submission was answered
    with, written in decimal and sent right after it, is answered 200 with
    status "ongoing", that id, and no error list. *)
Theorem submit_then_status_is_ongoing acts sv method body now req :
  serve acts initial = Some sv →
  accepted method body req →
  handleJobStatus MethodGet (Itoa (nextJobID sv))
    (handleSubmitJob method body now sv).2
  = JSONResponse StatusOK
      (JObject [("status", JString ongoing);
                ("job_id", JString (Itoa (nextJobID sv)))]).
Proof.
  intros Hsv Hacc.
  destruct (submit_registers_without_disturbing _ _ _ _ now _ Hsv Hacc)
    as (sv' & Hresp & Hjob & _).
  rewrite Hresp. simpl.
  destruct (registry_is_consistent _ _ Hsv) as (_ & _ & Hrange).
  pose proof (Atoi_Itoa _ Hrange) as Hid.
  unfold handleJobStatus. rewrite decide_False by (by intros []).
  rewrite decide_False by (intros Hempty; by rewrite Hempty in Hid).
  by rewrite Hid, Hjob.
Qed.

(** X15. A status request that finds its job is answered with the decimal
    form of the id it asked for, however that id was written in the request,
    and with one of the three status values. *)
Theorem status_echoes_queried_id acts sv jobIDStr jobID j :
  serve acts initial = Some sv →
  Atoi jobIDStr = Some jobID →
  getJob sv jobID = Some j →
  handleJobStatus MethodGet jobIDStr sv
    = handleJobStatus MethodGet (Itoa jobID) sv ∧
  (∃ body,
     handleJobStatus MethodGet jobIDStr sv = JSONResponse StatusOK body ∧
     field "job_id" body = Some (JString (Itoa jobID)) ∧
     (field "status" body = Some (JString ongoing) ∨
      field "status" body = Some (JString completed) ∨
      field "status" body = Some (JString failed))).
Proof.
  intros Hsv Hid Hj.
  assert (- 2^63 ≤ jobID < 2^63)%Z as Hrange.
  { unfold Atoi in Hid. repeat case_match; simplify_eq; lia. }
  pose proof (Atoi_Itoa _ Hrange) as Hid'.
  assert (∀ s, Atoi s = Some jobID →
               handleJobStatus MethodGet s sv
               = JSONResponse StatusOK
                   (encode_JobStatusResponse
                      {| JobStatusResponse_Status := Status j;
                         JobStatusResponse_JobID := Itoa (ID j);
                         JobStatusResponse_Errors :=
                           if decide (Status j = failed)
                           then Errors j else [] |})) as Hresp.
  { intros s Hs. unfold handleJobStatus.
    rewrite decide_False by (by intros []).
    rewrite decide_False by (intros Hempty; by rewrite Hempty in Hs).
    by rewrite Hs, Hj. }
  split; [by rewrite !Hresp|].
  eexists. split; [by apply Hresp|].
  destruct (registry_is_consistent _ _ Hsv) as (Hids & _ & _).
  rewrite (Hids _ _ Hj).
  split; [done|].
  assert (Status j = ongoing ∨ terminal (Status j)) as Hstatus.
  { unfold getJob in Hj. destruct (jobs sv !! jobID) as [addr|]; [|done].
    simpl in Hj. destruct (heap sv !! addr) as [p|] eqn:Hp; [|done].
    simpl in Hj. simplify_eq.
    destruct (serve_started _ _ _ _ _ _ _ Hsv Hp)
      as (jid & now & req & evs & Hrun).
    destruct (accounted_run _ _ _ _ _ _ Hrun) as [settled Hacc].
    by apply (accounted_status _ _ _ _ Hacc). }
  unfold encode_JobStatusResponse, field; simpl.
  destruct Hstatus as [->|[-> | ->]]; auto.
Qed.

(** X16. As long as fewer than 2^63 - 1 submissions have been accepted, a
    status request for an id that no submission was answered with gets a 400
    whose body is the empty JSON object. *)
Theorem unissued_id_is_not_found acts sv jobIDStr jobID :
  serve acts initial = Some sv →
  (Z.of_nat (length (heap sv)) < 2^63 - 1)%Z →
  Atoi jobIDStr = Some jobID →
  ¬ (1 ≤ jobID ≤ Z.of_nat (length (heap sv)))%Z →
  handleJobStatus MethodGet jobIDStr sv
  = JSONResponse StatusBadRequest (JObject []).
Proof.
  intros Hsv Hbound Hid Hout.
  destruct (job_ids_are_sequential _ _ Hsv Hbound) as [_ Hseq].
  unfold handleJobStatus.
  rewrite decide_False by (by intros []).
  rewrite decide_False by (intros Hempty; by rewrite Hempty in Hid).
  rewrite Hid.
  destruct (getJob sv jobID) as [j|] eqn:Hj; [|done].
  destruct Hout. apply Hseq. by eexists.
Qed.

(** ** Jobs do not interfere *)

(** X17. Whatever the process does, a job object changes only through steps
    of its own goroutines, and only an accepted submission changes the
    registry, the next id or the number of job objects. *)
Theorem only_own_goroutines_change_a_job acts sv sv' :
  serve acts sv = Some sv' →
  (∀ addr p, heap sv !! addr = Some p →
             Forall (λ a, ¬ runs_goroutine_of addr a) acts →
             heap sv' !! addr = Some p) ∧
  (Forall (λ a, ¬ is_submission a) acts →
   jobs sv' = jobs sv ∧ nextJobID sv' = nextJobID sv ∧
   length (heap sv') = length (heap sv)).
Proof.
  revert sv. induction acts as [|a acts IH]; intros sv; simpl.
  - intros; by simplify_eq.
  - destruct (act a sv) as [sv1|] eqn:Ha; [|done]. intros Hserve.
    destruct (IH _ Hserve) as [IHjob IHreg]. split.
    + intros addr p Hp Hnone. apply Forall_cons in Hnone as [Hna Hnone].
      apply IHjob; [|done].
      destruct a as [method body now|method jobIDStr|addr' ev];
        simpl in Ha.
      * simplify_eq.
        destruct (handleSubmitJob_heap Body Decode method body now sv)
          as [[k Hk] _].
        rewrite Hk. by apply lookup_app_l_Some.
      * by simplify_eq.
      * destruct (heap sv !! addr') as [q|] eqn:Hq; simpl in Ha; [|done].
        destruct (step ev q) as [q'|]; simpl in Ha; [|done].
        simplify_eq. simpl. rewrite list_lookup_insert_ne; [done|].
        intros ->. by apply Hna.
    + intros Hnone. apply Forall_cons in Hnone as [Hna Hnone].
      destruct (IHreg Hnone) as (-> & -> & ->).
      destruct a as [method body now|method jobIDStr|addr' ev];
        simpl in Ha.
      * by destruct Hna.
      * by simplify_eq.
      * destruct (heap sv !! addr') as [q|] eqn:Hq; simpl in Ha; [|done].
        destruct (step ev q) as [q'|]; simpl in Ha; [|done].
        simplify_eq. simpl. by rewrite length_insert.
Qed.

(** ** Every registered job can settle *)

Lemma serve_goroutines addr evs sv p p' :
  heap sv !! addr = Some p → run evs p = Some p' →
  serve (goroutine_actions addr evs) sv
  = Some {| jobs := jobs sv; heap := <[addr := p']> (heap sv);
            nextJobID := nextJobID sv |}.
Proof.
  revert sv p. induction evs as [|ev evs IH]; intros sv p Hp; simpl.
  - intros; simplify_eq. rewrite list_insert_id by done. by destruct sv.
  - destruct (step ev p) as [q|] eqn:Hq; [|done]. intros Hrun.
    rewrite Hp. simpl. rewrite Hq. simpl.
    erewrite (IH _ q);
      [|simpl; apply list_lookup_insert_eq; by eapply lookup_lt_Some|done].
    simpl. by rewrite list_insert_insert_eq.
Qed.

(** X18. Whatever the process has done so far, the goroutines of any job
    object can be run on until [processJob] has returned and no unit is in
    flight; the job then has a terminal status, and the registry is as
    before. *)
Theorem every_registered_job_can_settle acts sv addr p :
  serve acts initial = Some sv →
  heap sv !! addr = Some p →
  ∃ evs sv' p',
    serve (goroutine_actions addr evs) sv = Some sv' ∧
    heap sv' !! addr = Some p' ∧
    quiescent p' ∧ terminal (Status (job p')) ∧
    jobs sv' = jobs sv ∧ nextJobID sv' = nextJobID sv.
Proof.
  intros Hsv Hp.
  destruct (serve_started _ _ _ _ _ _ _ Hsv Hp)
    as (jobID & now & req & evs0 & Hrun0).
  destruct (every_job_settles _ _ _ _ _ _ Hrun0)
    as (_ & _ & _ & evs & p' & Hrun & Hq & Hterm & _).
  exists evs, {| jobs := jobs sv; heap := <[addr := p']> (heap sv);
                 nextJobID := nextJobID sv |}, p'.
  split; [by apply (serve_goroutines _ _ _ p)|].
  simpl. split_and!; try done.
  apply list_lookup_insert_eq. by apply lookup_lt_Some in Hp.
Qed.

End ServerMore.

(** * The further properties at the sample submissions *)

Lemma every_job_settles_witness :
  ∃ p, run web_up [Main 1; Main 2; Main 3; Main 4]
         (processJob (newJob 1 0) request_then_unknown) = Some p ∧
       ∃ evs' p', run web_up evs' p = Some p' ∧ quiescent p' ∧
                  terminal (Status (job p')) ∧ is_Some (CompletedAt (job p')).
Proof.
  destruct (run web_up [Main 1; Main 2; Main 3; Main 4]
              (processJob (newJob 1 0) request_then_unknown))
    as [p|] eqn:Hrun; [|by vm_compute in Hrun].
  exists p. split; [reflexivity|].
  exact (proj2 (proj2 (proj2
           (every_job_settles web_up 1 0 request_then_unknown _ _ Hrun)))).
Defined.

Lemma outcome_is_schedule_independent_witness :
  ∃ p1 p2,
    run_observed observed_A_first (processJob (newJob 1 0) request_two)
      = Some p1 ∧
    run_observed observed_B_failed_first (processJob (newJob 1 0) request_two)
      = Some p2 ∧
    fetches_agree web_partial observed_A_first
      (processJob (newJob 1 0) request_two) ∧
    fetches_agree web_partial observed_B_failed_first
      (processJob (newJob 1 0) request_two) ∧
    quiescent p1 ∧ quiescent p2 ∧
    Status (job p1) = Status (job p2) ∧
    Results (job p1) ≡ₚ Results (job p2) ∧
    Errors (job p1) ≡ₚ Errors (job p2).
Proof.
  destruct (run_observed observed_A_first
              (processJob (newJob 1 0) request_two))
    as [p1|] eqn:Hrun1; [|by vm_compute in Hrun1].
  destruct (run_observed observed_B_failed_first
              (processJob (newJob 1 0) request_two))
    as [p2|] eqn:Hrun2; [|by vm_compute in Hrun2].
  assert (fetches_agree web_partial observed_A_first
            (processJob (newJob 1 0) request_two)) as Hagree1
    by (vm_compute; tauto).
  assert (fetches_agree web_partial observed_B_failed_first
            (processJob (newJob 1 0) request_two)) as Hagree2
    by (vm_compute; tauto).
  assert (quiescent p1) as Hq1
    by (vm_compute in Hrun1; simplify_eq; by split).
  assert (quiescent p2) as Hq2
    by (vm_compute in Hrun2; simplify_eq; by split).
  exists p1, p2.
  split; [reflexivity|]. split; [reflexivity|].
  split; [exact Hagree1|]. split; [exact Hagree2|].
  split; [exact Hq1|]. split; [exact Hq2|].
  exact (outcome_is_schedule_independent web_partial 1 0 request_two
           _ _ _ _ Hrun1 Hrun2 Hagree1 Hagree2 Hq1 Hq2).
Defined.

Lemma job_life_cycle_witness :
  ∃ p, run web_partial [Main 1; Main 2; Main 3; Unit 1]
         (processJob (newJob 1 0) request_two) = Some p ∧
       (CompletedAt (job p) = None ↔ pc p ≠ Returned) ∧
       (Status (job p) = ongoing ↔ pc p ≠ Returned ∧ Errors (job p) = []) ∧
       (Status (job p) = completed ↔ pc p = Returned ∧ Errors (job p) = []) ∧
       (Status (job p) = failed ↔ Errors (job p) ≠ []).
Proof.
  destruct (run web_partial [Main 1; Main 2; Main 3; Unit 1]
              (processJob (newJob 1 0) request_two)) as [p|] eqn:Hrun;
    [|by vm_compute in Hrun].
  exists p. split; [reflexivity|].
  exact (job_life_cycle web_partial 1 0 request_two _ _ Hrun).
Defined.

Lemma job_identity_is_kept_witness :
  ∃ p, run web_partial schedule_BA (processJob (newJob 7 42) request_two)
         = Some p ∧
       ID (job p) = 7%Z ∧ CreatedAt (job p) = Some 42%Z.
Proof.
  destruct (run web_partial schedule_BA (processJob (newJob 7 42) request_two))
    as [p|] eqn:Hrun; [|by vm_compute in Hrun].
  exists p. split; [reflexivity|].
  exact (job_identity_is_kept web_partial 7 42 request_two _ _ Hrun).
Defined.

Lemma waitgroup_counts_units_witness :
  ∃ p, run web_partial [Main 1; Main 2; Main 3; Main 4]
         (processJob (newJob 1 0) request_two) = Some p ∧
       wg p = length (units p) ∧
       (∀ i p', step web_partial (Unit i) p = Some p' → wg p = S (wg p')) ∧
       (pc p = AtVisits [] →
        ∀ now, is_Some (step web_partial (Main now) p) ↔ units p = []).
Proof.
  destruct (run web_partial [Main 1; Main 2; Main 3; Main 4]
              (processJob (newJob 1 0) request_two)) as [p|] eqn:Hrun;
    [|by vm_compute in Hrun].
  exists p. split; [reflexivity|].
  exact (waitgroup_counts_units web_partial 1 0 request_two _ _ Hrun).
Defined.

Lemma recorded_results_are_sound_witness :
  ∃ p, run web_up [Main 1; Main 2; Main 3; Unit 0; Main 4]
         (processJob (newJob 1 0) request_one) = Some p ∧
       result_urlA ∈ Results (job p) ∧
       ∃ visit,
         visit ∈ Visits request_one ∧
         StoreID result_urlA = Visit_StoreID visit ∧
         ImageURL result_urlA ∈ Visit_ImageURLs visit ∧
         getStore (StoreID result_urlA)
           = Some {| Store_StoreID := StoreID result_urlA;
                     Store_StoreName := StoreName result_urlA;
                     Store_AreaCode := AreaCode result_urlA |} ∧
         downloadAndGetDimensions web_up (ImageURL result_urlA)
           = inl (Width result_urlA, Height result_urlA) ∧
         Perimeter result_urlA
           = (2 * float64_of_int
                    (wrap (Width result_urlA + Height result_urlA)))%Z.
Proof.
  destruct (run web_up [Main 1; Main 2; Main 3; Unit 0; Main 4]
              (processJob (newJob 1 0) request_one)) as [p|] eqn:Hrun;
    [|by vm_compute in Hrun].
  assert (result_urlA ∈ Results (job p)) as Hr
    by (vm_compute in Hrun; simplify_eq; by left).
  exists p. split; [reflexivity|]. split; [exact Hr|].
  exact (recorded_results_are_sound web_up 1 0 request_one _ _ _ Hrun Hr).
Defined.

Lemma recorded_errors_are_sound_witness :
  ∃ p, run web_up [Main 1; Main 2; Main 3; Main 4]
         (processJob (newJob 1 0) request_then_unknown) = Some p ∧
       unknown_store_error "UNKNOWN" ∈ Errors (job p) ∧
       ∃ visit,
         visit ∈ Visits request_then_unknown ∧
         StoreError_StoreID (unknown_store_error "UNKNOWN")
           = Visit_StoreID visit.
Proof.
  destruct (run web_up [Main 1; Main 2; Main 3; Main 4]
              (processJob (newJob 1 0) request_then_unknown))
    as [p|] eqn:Hrun; [|by vm_compute in Hrun].
  assert (unknown_store_error "UNKNOWN" ∈ Errors (job p)) as He
    by (vm_compute in Hrun; simplify_eq; by left).
  exists p. split; [reflexivity|]. split; [exact He|].
  destruct (recorded_errors_are_sound web_up 1 0 request_then_unknown
              _ _ _ Hrun He) as (visit & Hv & Hid & _).
  exists visit. split; assumption.
Defined.

Lemma images_are_accounted_once_witness :
  ∃ p, run web_partial [Main 1; Main 2; Main 3; Unit 1]
         (processJob (newJob 1 0) request_two) = Some p ∧
       ∃ settled,
         settled ++ units p ++ todo (pc p)
           ≡ₚ dispatchable (Visits request_two) ∧
         Forall (λ u, (is_Some (result_of web_partial u) ∧
                       error_of web_partial u = None) ∨
                      (result_of web_partial u = None ∧
                       is_Some (error_of web_partial u))) settled ∧
         Results (job p) ≡ₚ omap (result_of web_partial) settled ∧
         Errors (job p)
           ≡ₚ omap (error_of web_partial) settled
              ++ early_error (Visits request_two) (pc p) ∧
         length (Results (job p)) + length (omap (error_of web_partial) settled)
           = length settled ∧
         length (Results (job p)) + length (Errors (job p))
           + length (units p) + length (todo (pc p))
         = length (dispatchable (Visits request_two))
           + length (early_error (Visits request_two) (pc p)).
Proof.
  destruct (run web_partial [Main 1; Main 2; Main 3; Unit 1]
              (processJob (newJob 1 0) request_two)) as [p|] eqn:Hrun;
    [|by vm_compute in Hrun].
  exists p. split; [reflexivity|].
  exact (images_are_accounted_once web_partial 1 0 request_two _ _ Hrun).
Defined.

Lemma perimeter_of_decoded_image_witness :
  getStore "S00339218" = Some store_A ∧
  web_offset "urlA" = Responded StatusOK (Decoded offset_bounds) ∧
  image_bounds offset_bounds ∧
  calculateImagePerimeter web_offset "S00339218" "urlA"
    = inl result_urlA.
Proof.
  assert (image_bounds offset_bounds) as Hb
    by (unfold image_bounds; simpl; lia).
  split; [reflexivity|]. split; [reflexivity|]. split; [exact Hb|].
  exact (proj1 (perimeter_of_decoded_image web_offset "S00339218" store_A
                  "urlA" offset_bounds eq_refl eq_refl Hb)).
Defined.

Lemma handleSubmitJob_accepts_exactly_witness :
  accepted (λ _ req, Some req) MethodPost request_one request_one ∧
  (handleSubmitJob SubmitJobRequest (λ _ req, Some req) MethodPost
     request_one 0 initial).1
  = JSONResponse StatusCreated
      (encode_JobResponse {| JobResponse_JobID := 1 |}).
Proof.
  assert (accepted (λ _ req, Some req) MethodPost request_one request_one)
    as Hacc by (repeat split).
  split; [exact Hacc|].
  rewrite (proj1 (handleSubmitJob_accepts_exactly SubmitJobRequest
                    (λ _ req, Some req) MethodPost request_one 0 initial)
             request_one Hacc).
  reflexivity.
Defined.

Lemma registry_is_consistent_witness :
  ∃ sv,
    serve web_up SubmitJobRequest (λ _ req, Some req) three_submissions initial
      = Some sv ∧
    (∀ id j, getJob sv id = Some j → ID j = id) ∧
    (∀ id, is_Some (jobs sv !! id) → is_Some (getJob sv id)) ∧
    (- 2^63 ≤ nextJobID sv < 2^63)%Z.
Proof.
  destruct (serve web_up SubmitJobRequest (λ _ req, Some req)
              three_submissions initial) as [sv|] eqn:Hsv;
    [|by vm_compute in Hsv].
  exists sv. split; [reflexivity|].
  exact (registry_is_consistent web_up SubmitJobRequest (λ _ req, Some req)
           _ _ Hsv).
Defined.

Lemma job_ids_are_sequential_witness :
  ∃ sv,
    serve web_up SubmitJobRequest (λ _ req, Some req) three_submissions initial
      = Some sv ∧
    (Z.of_nat (length (heap sv)) < 2^63 - 1)%Z ∧
    nextJobID sv = (Z.of_nat (length (heap sv)) + 1)%Z ∧
    ∀ id, is_Some (getJob sv id) ↔ (1 ≤ id ≤ Z.of_nat (length (heap sv)))%Z.
Proof.
  destruct (serve web_up SubmitJobRequest (λ _ req, Some req)
              three_submissions initial) as [sv|] eqn:Hsv;
    [|by vm_compute in Hsv].
  assert (Z.of_nat (length (heap sv)) < 2^63 - 1)%Z as Hbound
    by (vm_compute in Hsv; simplify_eq; by vm_compute).
  exists sv. split; [reflexivity|]. split; [exact Hbound|].
  exact (job_ids_are_sequential web_up SubmitJobRequest (λ _ req, Some req)
           _ _ Hsv Hbound).
Defined.

Lemma submit_registers_without_disturbing_witness :
  ∃ sv,
    serve web_up SubmitJobRequest (λ _ req, Some req) three_submissions initial
      = Some sv ∧
    accepted (λ _ req, Some req) MethodPost request_two request_two ∧
    ∃ sv',
      handleSubmitJob SubmitJobRequest (λ _ req, Some req) MethodPost
        request_two 9 sv
        = (JSONResponse StatusCreated
             (encode_JobResponse {| JobResponse_JobID := nextJobID sv |}),
           sv') ∧
      getJob sv' (nextJobID sv) = Some (newJob (nextJobID sv) 9) ∧
      (∀ id, id ≠ nextJobID sv → getJob sv' id = getJob sv id).
Proof.
  destruct (serve web_up SubmitJobRequest (λ _ req, Some req)
              three_submissions initial) as [sv|] eqn:Hsv;
    [|by vm_compute in Hsv].
  assert (accepted (λ _ req, Some req) MethodPost request_two request_two)
    as Hacc by (repeat split).
  exists sv. split; [reflexivity|]. split; [exact Hacc|].
  destruct (submit_registers_without_disturbing web_up SubmitJobRequest
              (λ _ req, Some req) _ _ MethodPost request_two 9 request_two
              Hsv Hacc) as (sv' & Hresp & Hjob & Hother & _).
  exists sv'. repeat split; assumption.
Defined.

Lemma submit_then_status_is_ongoing_witness :
  ∃ sv,
    serve web_up SubmitJobRequest (λ _ req, Some req) three_submissions initial
      = Some sv ∧
    accepted (λ _ req, Some req) MethodPost request_two request_two ∧
    handleJobStatus MethodGet (Itoa (nextJobID sv))
      (handleSubmitJob SubmitJobRequest (λ _ req, Some req) MethodPost
         request_two 9 sv).2
    = JSONResponse StatusOK
        (JObject [("status", JString ongoing);
                  ("job_id", JString (Itoa (nextJobID sv)))]).
Proof.
  destruct (serve web_up SubmitJobRequest (λ _ req, Some req)
              three_submissions initial) as [sv|] eqn:Hsv;
    [|by vm_compute in Hsv].
  assert (accepted (λ _ req, Some req) MethodPost request_two request_two)
    as Hacc by (repeat split).
  exists sv. split; [reflexivity|]. split; [exact Hacc|].
  exact (submit_then_status_is_ongoing web_up SubmitJobRequest
           (λ _ req, Some req) _ _ MethodPost request_two 9 request_two
           Hsv Hacc).
Defined.

Lemma status_echoes_queried_id_witness :
  ∃ sv j,
    serve web_up SubmitJobRequest (λ _ req, Some req) three_submissions initial
      = Some sv ∧
    Atoi "+02" = Some 2%Z ∧
    getJob sv 2 = Some j ∧
    handleJobStatus MethodGet "+02" sv
      = handleJobStatus MethodGet (Itoa 2) sv.
Proof.
  destruct (serve web_up SubmitJobRequest (λ _ req, Some req)
              three_submissions initial) as [sv|] eqn:Hsv;
    [|by vm_compute in Hsv].
  destruct (getJob sv 2) as [j|] eqn:Hj;
    [|vm_compute in Hsv; simplify_eq; by vm_compute in Hj].
  exists sv, j.
  split; [reflexivity|]. split; [reflexivity|]. split; [exact Hj|].
  exact (proj1 (status_echoes_queried_id web_up SubmitJobRequest
                  (λ _ req, Some req) _ _ "+02" 2%Z j Hsv eq_refl Hj)).
Defined.

Lemma unissued_id_is_not_found_witness :
  ∃ sv,
    serve web_up SubmitJobRequest (λ _ req, Some req) three_submissions initial
      = Some sv ∧
    (Z.of_nat (length (heap sv)) < 2^63 - 1)%Z ∧
    Atoi "3" = Some 3%Z ∧
    ¬ (1 ≤ 3 ≤ Z.of_nat (length (heap sv)))%Z ∧
    handleJobStatus MethodGet "3" sv
    = JSONResponse StatusBadRequest (JObject []).
Proof.
  destruct (serve web_up SubmitJobRequest (λ _ req, Some req)
              three_submissions initial) as [sv|] eqn:Hsv;
    [|by vm_compute in Hsv].
  assert (Z.of_nat (length (heap sv)) < 2^63 - 1)%Z as Hbound
    by (vm_compute in Hsv; simplify_eq; by vm_compute).
  assert (¬ (1 ≤ 3 ≤ Z.of_nat (length (heap sv)))%Z) as Hout
    by (vm_compute in Hsv; simplify_eq; simpl; lia).
  exists sv. split; [reflexivity|]. split; [exact Hbound|].
  split; [reflexivity|]. split; [exact Hout|].
  exact (unissued_id_is_not_found web_up SubmitJobRequest (λ _ req, Some req)
           _ _ "3" 3%Z Hsv Hbound eq_refl Hout).
Defined.

Lemma only_own_goroutines_change_a_job_witness :
  ∃ sv sv' p,
    serve web_up SubmitJobRequest (λ _ req, Some req) three_submissions initial
      = Some sv ∧
    serve web_up SubmitJobRequest (λ _ req, Some req) poll_and_other_job sv
      = Some sv' ∧
    heap sv !! 0 = Some p ∧
    Forall (λ a, ¬ runs_goroutine_of 0 a) poll_and_other_job ∧
    Forall (λ a, ¬ is_submission a) poll_and_other_job ∧
    heap sv' !! 0 = Some p ∧
    jobs sv' = jobs sv ∧ nextJobID sv' = nextJobID sv ∧
    length (heap sv') = length (heap sv).
Proof.
  destruct (serve web_up SubmitJobRequest (λ _ req, Some req)
              three_submissions initial) as [sv|] eqn:Hsv;
    [|by vm_compute in Hsv].
  destruct (serve web_up SubmitJobRequest (λ _ req, Some req)
              poll_and_other_job sv) as [sv'|] eqn:Hsv';
    [|vm_compute in Hsv; simplify_eq; by vm_compute in Hsv'].
  destruct (heap sv !! 0) as [p|] eqn:Hp;
    [|vm_compute in Hsv; simplify_eq; by vm_compute in Hp].
  assert (Forall (λ a : Action SubmitJobRequest, ¬ runs_goroutine_of 0 a)
                 poll_and_other_job) as Hown.
  { apply Forall_cons_2; [by intros []|].
    apply Forall_cons_2; [simpl; lia|apply Forall_nil_2]. }
  assert (Forall (λ a : Action SubmitJobRequest, ¬ is_submission a)
                 poll_and_other_job) as Hsub.
  { apply Forall_cons_2; [by intros []|].
    apply Forall_cons_2; [by intros []|apply Forall_nil_2]. }
  exists sv, sv', p.
  split; [reflexivity|]. split; [exact Hsv'|]. split; [exact Hp|].
  split; [exact Hown|]. split; [exact Hsub|].
  destruct (only_own_goroutines_change_a_job web_up SubmitJobRequest
              (λ _ req, Some req) _ _ _ Hsv') as [Hjob Hreg].
  split; [exact (Hjob 0 p Hp Hown)|]. exact (Hreg Hsub).
Defined.

Lemma every_registered_job_can_settle_witness :
  ∃ sv p,
    serve web_up SubmitJobRequest (λ _ req, Some req) three_submissions initial
      = Some sv ∧
    heap sv !! 1 = Some p ∧
    ∃ evs sv' p',
      serve web_up SubmitJobRequest (λ _ req, Some req)
        (goroutine_actions 1 evs) sv = Some sv' ∧
      heap sv' !! 1 = Some p' ∧
      quiescent p' ∧ terminal (Status (job p')).
Proof.
  destruct (serve web_up SubmitJobRequest (λ _ req, Some req)
              three_submissions initial) as [sv|] eqn:Hsv;
    [|by vm_compute in Hsv].
  destruct (heap sv !! 1) as [p|] eqn:Hp;
    [|vm_compute in Hsv; simplify_eq; by vm_compute in Hp].
  exists sv, p. split; [reflexivity|]. split; [exact Hp|].
  destruct (every_registered_job_can_settle web_up SubmitJobRequest
              (λ _ req, Some req) _ _ _ _ Hsv Hp)
    as (evs & sv' & p' & Hserve & Hp' & Hq & Hterm & _).
  exists evs, sv', p'. repeat split; (assumption || apply Hq).
Defined.

(** * The status handler reads without the job's lock *)

Lemma record_error_writes j storeID msg :
  record_error j storeID msg = append_error (set_failed j) storeID msg.
Proof. done. Qed.

Lemma handleJobStatus_one_snapshot jobIDStr jobID sv j :
  Atoi jobIDStr = Some jobID →
  getJob sv jobID = Some j →
  handleJobStatus MethodGet jobIDStr sv = status_response j j j.
Proof.
  intros Hid Hj. unfold handleJobStatus.
  rewrite decide_False by (by intros []).
  rewrite decide_False by (intros ->; done).
  by rewrite Hid, Hj.
Qed.

(** C7, the failing run.  One visit to a known store with one image whose
    fetch is answered 404.  Once the unit is dispatched the job is "ongoing"
    with no error, and the unit's critical section makes two writes: the
    status, then the error list.  A status query that reads the job between
    the two writes answers "failed" with no "error" field; one that copies
    the status before the critical section and tests it after answers
    "ongoing" together with the error list. *)
Theorem status_read_inside_critical_section :
  ∃ p p',
    run web_down [Main 1; Main 2]
      (processJob (newJob 1 0) request_one) = Some p ∧
    Status (job p) = ongoing ∧ Errors (job p) = [] ∧
    units p = [("S00339218", "urlA")] ∧
    step web_down (Unit 0) p = Some p' ∧
    job p' = append_error (set_failed (job p)) "S00339218"
               "error downloading image: status code 404" ∧
    let writing := set_failed (job p) in
    Status writing = failed ∧
    status_response writing writing writing
      = JSONResponse StatusOK
          (JObject [("status", JString failed); ("job_id", JString "1")]) ∧
    status_response (job p) (job p') (job p')
      = JSONResponse StatusOK
          (JObject [("status", JString ongoing); ("job_id", JString "1");
                    ("error",
                     JArray [encode_StoreError
                               {| StoreError_StoreID := "S00339218";
                                  StoreError_Error :=
                                    "error downloading image: status code 404"
                               |}])]).
Proof. eexists _, _. split_and!; by vm_compute. Qed.

(** * Fetches that depend on more than the URL *)

(** When the outcome of a fetch depends on when it is made, the outcome of a
    job depends on the schedule: with a server that answers the first fetch
    with the image and the second with 404, the job of [request_two] holds
    the result of urlA when the unit of urlA fetches first and the result of
    urlB when the unit of urlB does. *)
Lemma outcome_depends_on_fetch_order :
  ∃ p1 p2,
    run_observed observed_A_first (processJob (newJob 1 0) request_two)
      = Some p1 ∧
    run_observed observed_B_first (processJob (newJob 1 0) request_two)
      = Some p2 ∧
    quiescent p1 ∧ quiescent p2 ∧
    ImageURL <$> Results (job p1) = ["urlA"] ∧
    ImageURL <$> Results (job p2) = ["urlB"].
Proof. eexists _, _. split_and!; by vm_compute. Qed.
